(** * tmee: the recursive folder tree printer (src/main.py)

    A shallow embedding of the traversal engine of [main.py]: the filter
    [should_ignore], the listing helper [safe_scandir], and [tree] with its
    two closures [mark_seen] and [walk].

    Python values are modelled as follows.
    - [str] is a [string] of bytes holding the UTF-8 encoding; comparing two
      such strings byte by byte is comparing them code point by code point,
      which is how Python orders [str].
    - [pathlib.Path] is the list of the parts of an absolute path.
    - [set] is stdpp's [gset]; [list[str]] is [list string].
    - Every call into the operating system is a field of [FileSystem]; an
      answer is whatever the call returned or raised when it was made.
    - Exceptions are the constructor [Raise] of [outcome]; the recursion of
      [walk] is bounded by a fuel argument, [OutOfFuel] standing for a run
      that has not returned yet.  The recursion limit of the interpreter is
      not modelled.
    - [fnmatch.fnmatch] and [str.lower] are the two fields of [Runtime];
      [Path.resolve], called without [strict], is taken to return. *)

From Stdlib Require Import ZArith Lia List Bool Ascii String.
From Stdlib Require Import Sorting.Sorted.
From stdpp Require Import base gmap sets list strings sorting.

#[local] Set Warnings "-clear-no-such-hyp".

Open Scope Z_scope.

(** ** Exceptions and outcomes *)

(** The classes of [OSError] the code tells apart, and [OSError] for the
    rest of them. *)
Inductive exn : Type :=
  | FileNotFoundError
  | NotADirectoryError
  | PermissionError
  | OSError.

Inductive outcome (A : Type) : Type :=
  | Done (a : A)
  | Raise (e : exn)
  | OutOfFuel.

Arguments Done {A} a.
Arguments Raise {A} e.
Arguments OutOfFuel {A}.

Definition bind {A B : Type} (m : outcome A) (k : A -> outcome B) : outcome B :=
  match m with
  | Done a => k a
  | Raise e => Raise e
  | OutOfFuel => OutOfFuel
  end.

Notation "'try' x <- m 'in' k" := (bind m (fun x => k))
  (at level 10, x name, m at level 100, k at level 200).

(** ** Paths *)

Definition Path : Type := list string.

(** [p.name]: the final part, empty for the root of the hierarchy. *)
Definition name (p : Path) : string := List.last p "".

(** [Path(e.path)] for an entry called [n] read from the directory [d]. *)
Definition joinpath (d : Path) (n : string) : Path := d ++ [n].

(** [str(p)] *)
Definition path_str (p : Path) : string := "/" +:+ String.concat "/" p.

(** ** The operating system *)

(** [os.DirEntry]: its name and the answer of
    [e.is_dir(follow_symlinks=b)], [None] when the call raises [OSError]. *)
Record DirEntry : Type := {
  de_name : string;
  de_is_dir : bool -> option bool
}.

(** [os.stat_result]; a field is [None] when the attribute is missing. *)
Record stat_result : Type := {
  st_dev : option Z;
  st_ino : option Z
}.

(** The errors [Path.exists] and [Path.is_dir] do not swallow: they answer
    [False] on ENOENT, ENOTDIR, EBADF and ELOOP, so what they raise is never
    [FileNotFoundError] or [NotADirectoryError]. *)
Inductive probe_error : Type := EACCES | EIO.

Definition exn_of_probe (e : probe_error) : exn :=
  match e with
  | EACCES => PermissionError
  | EIO => OSError
  end.

Inductive probe : Type :=
  | Yes
  | No
  | Fault (e : probe_error).

Record FileSystem : Type := {
  (** [os.scandir(d)]: the entries it yields, then the exception that ends
      the iteration, if any (raised on opening when nothing was yielded). *)
  scandir : Path -> list DirEntry * option exn;
  (** [p.exists()] *)
  Path_exists : Path -> probe;
  (** [p.is_dir()], which follows symbolic links *)
  Path_is_dir : Path -> probe;
  (** [p.stat()], [None] when it raises [OSError] *)
  Path_stat : Path -> option stat_result;
  (** [p.resolve()] *)
  Path_resolve : Path -> Path
}.

(** The two library functions on [str] the engine calls. *)
Record Runtime : Type := {
  (** [fnmatch.fnmatch(name, pat)] *)
  fnmatch : string -> string -> bool;
  (** [s.lower()] *)
  lower : string -> string
}.

(** ** Filters *)

Record Filters : Type := {
  show_hidden : bool;
  dirs_only : bool;
  pattern : option string;
  ignore_names : list string;
  ignore_globs : list string
}.

(** The traversal state the closures of [tree] share. *)
Record State : Type := {
  lines : list string;
  seen_dirs : gset (Z * Z);
  seen_realpaths : gset string
}.

Definition append_line (st : State) (l : string) : State :=
  {| lines := lines st ++ [l];
     seen_dirs := seen_dirs st;
     seen_realpaths := seen_realpaths st |}.

(** ** The sort key of [walk]: [(not is_dir, name.lower())] *)

Definition key_lt (k1 k2 : bool * string) : bool :=
  match Bool.compare (fst k1) (fst k2) with
  | Lt => true
  | Gt => false
  | Eq => String.ltb (snd k1) (snd k2)
  end.

Section Sorting.
Context {A : Type} (key : A -> bool * string).

(** [list.sort] is stable: an element goes in front of the first one
    whose key is not smaller than its own. *)
Fixpoint insert_sorted (x : A) (l : list A) : list A :=
  match l with
  | [] => [x]
  | y :: l' =>
      if key_lt (key y) (key x) then y :: insert_sorted x l'
      else x :: y :: l'
  end.

Fixpoint sort_by (l : list A) : list A :=
  match l with
  | [] => []
  | x :: l' => insert_sorted x (sort_by l')
  end.
End Sorting.

Section Engine.
Context (rt : Runtime) (fs : FileSystem).

(** [path.name.startswith(".")] *)
Definition is_hidden (p : Path) : bool := String.prefix "." (name p).

(** [any(fnmatch.fnmatch(name, g) for g in globs)] *)
Definition matches_any_glob (n : string) (globs : list string) : bool :=
  existsb (fun g => fnmatch rt n g) globs.

(** A [str] is true when it is not empty, [None] is false. *)
Definition truthy (s : option string) : bool :=
  match s with
  | Some (String _ _) => true
  | _ => false
  end.

(** Lines 34 to 47.  [flt.pattern and ...] tests the truth of the pattern
    first; [path.is_dir()] is only called when [dirs_only] is on and no
    earlier rule applied. *)
Definition should_ignore (p : Path) (flt : Filters) : outcome bool :=
  let n := name p in
  if negb (show_hidden flt) && is_hidden p then Done true
  else if existsb (String.eqb n) (ignore_names flt) then Done true
  else if matches_any_glob n (ignore_globs flt) then Done true
  else if truthy (pattern flt)
          && negb (fnmatch rt n (default "" (pattern flt))) then Done true
  else if dirs_only flt then
    match Path_is_dir fs p with
    | Yes => Done false
    | No => Done true
    | Fault e => Raise (exn_of_probe e)
    end
  else Done false.

(** Lines 50 to 58: the generator yields what [os.scandir] yields and
    ends quietly on [PermissionError] and [FileNotFoundError]; any other
    exception leaves it. *)
Definition safe_scandir (dir_path : Path) : outcome (list DirEntry) :=
  match scandir fs dir_path with
  | (es, None) => Done es
  | (es, Some PermissionError) => Done es
  | (es, Some FileNotFoundError) => Done es
  | (_, Some e) => Raise e
  end.

Section Tree.
Context (flt : Filters) (max_depth : option Z) (follow_symlinks : bool).

(** [getattr(st, field, d)] *)
Definition getattr (f : option Z) (d : Z) : Z := default d f.

(** Lines 71 to 87: the answer, and the state with the identity added when
    it was not there. *)
Definition mark_seen (p : Path) (st : State) : bool * State :=
  let by_realpath :=
    let rp := path_str (Path_resolve fs p) in
    if decide (rp ∈ seen_realpaths st) then (true, st)
    else (false, {| lines := lines st;
                    seen_dirs := seen_dirs st;
                    seen_realpaths := seen_realpaths st ∪ {[rp]} |}) in
  match Path_stat fs p with
  | Some s =>
      let key := (getattr (st_dev s) (-1), getattr (st_ino s) (-1)) in
      if decide (key ≠ (-1, -1)) then
        if decide (key ∈ seen_dirs st) then (true, st)
        else (false, {| lines := lines st;
                        seen_dirs := seen_dirs st ∪ {[key]};
                        seen_realpaths := seen_realpaths st |})
      else by_realpath
  | None => by_realpath
  end.

(** Lines 93 to 100: the pairs [(p, is_dir)] in listing order. *)
Definition read_entries (dir_path : Path) : outcome (list (Path * bool)) :=
  try es <- safe_scandir dir_path in
  Done (map (fun e => (joinpath dir_path (de_name e),
                       default false (de_is_dir e follow_symlinks))) es).

(** Line 102: the key of [entries.sort]. *)
Definition sort_key (x : Path * bool) : bool * string :=
  (negb (snd x), lower rt (name (fst x))).

(** Line 103: the comprehension calls [should_ignore] entry by entry. *)
Fixpoint drop_ignored (es : list (Path * bool)) : outcome (list (Path * bool)) :=
  match es with
  | [] => Done []
  | x :: rest =>
      try ign <- should_ignore (fst x) flt in
      try rest' <- drop_ignored rest in
      Done (if ign then rest' else x :: rest')
  end.

(** Lines 93 to 103: the entries the loop of [walk] goes through. *)
Definition list_entries (dir_path : Path) : outcome (list (Path * bool)) :=
  try es <- read_entries dir_path in
  drop_ignored (sort_by sort_key es).

(** Line 108: the line of one entry. *)
Definition entry_line (pre : string) (last : bool) (x : Path * bool) : string :=
  pre +:+ (if last then "└── " else "├── ") +:+ name (fst x)
      +:+ (if snd x then "/" else "").

(** ["    " if last else "│   "], lines 112 and 114. *)
Definition extension (last : bool) : string :=
  if last then "    " else "│   ".

(** Line 112: the cycle marker. *)
Definition cycle_line (pre : string) (last : bool) : string :=
  pre +:+ extension last +:+ "↩︎ (cycle)".

(** Lines 105 to 115, for the entries from index [idx] on; [n] is
    [len(entries)] and [rec] the recursive call of [walk]. *)
Fixpoint walk_entries (rec : Path -> string -> Z -> State -> outcome State)
    (pre : string) (depth : Z) (n : nat) (idx : nat)
    (es : list (Path * bool)) (st : State) : outcome State :=
  match es with
  | [] => Done st
  | x :: rest =>
      let last := Z.of_nat idx =? Z.of_nat n - 1 in
      let st1 := append_line st (entry_line pre last x) in
      if snd x then
        let '(seen, st2) :=
          if follow_symlinks then mark_seen (fst x) st1 else (false, st1) in
        if seen then
          walk_entries rec pre depth n (S idx) rest
            (append_line st2 (cycle_line pre last))
        else
          try st3 <- rec (fst x) (pre +:+ extension last) (depth + 1) st2 in
          walk_entries rec pre depth n (S idx) rest st3
      else walk_entries rec pre depth n (S idx) rest st1
  end.

(** Line 90: [max_depth is not None and depth > max_depth]. *)
Definition too_deep (depth : Z) : bool :=
  match max_depth with
  | Some m => depth >? m
  | None => false
  end.

(** Lines 89 to 115. *)
Fixpoint walk (fuel : nat) (dir_path : Path) (pre : string) (depth : Z)
    (st : State) : outcome State :=
  match fuel with
  | O => OutOfFuel
  | S fuel' =>
      if too_deep depth then Done st
      else
        try es <- list_entries dir_path in
        walk_entries (walk fuel') pre depth (length es) 0 es st
  end.

(** Lines 61 to 127. *)
Definition tree (fuel : nat) (root : Path) : outcome (list string) :=
  let root := Path_resolve fs root in
  match Path_exists fs root with
  | Fault e => Raise (exn_of_probe e)
  | No => Raise FileNotFoundError
  | Yes =>
      match Path_is_dir fs root with
      | Fault e => Raise (exn_of_probe e)
      | No => Raise NotADirectoryError
      | Yes =>
          let st := {| lines := [path_str root +:+ "/"];
                       seen_dirs := ∅;
                       seen_realpaths := ∅ |} in
          let st := if follow_symlinks then snd (mark_seen root st) else st in
          try st' <- walk fuel root "" 1 st in
          Done (lines st')
      end
  end.
End Tree.
End Engine.

(** ** A concrete runtime and table-driven file systems, to run the code *)

Definition lower_ascii (c : ascii) : ascii :=
  let n := N_of_ascii c in
  if ((65 <=? n) && (n <=? 90))%N then ascii_of_N (n + 32) else c.

(** [s.lower()] on the ASCII letters; other bytes are kept. *)
Fixpoint ascii_lower (s : string) : string :=
  match s with
  | EmptyString => EmptyString
  | String c s' => String (lower_ascii c) (ascii_lower s')
  end.

(** [fnmatch] for patterns made of literal characters, [?] and [*]. *)
Fixpoint glob_match (pat : string) : string -> bool :=
  match pat with
  | EmptyString => fun s => match s with EmptyString => true | _ => false end
  | String c pat' =>
      if Ascii.eqb c "*" then
        fix star (s : string) : bool :=
          glob_match pat' s
          || match s with EmptyString => false | String _ s' => star s' end
      else
        fun s =>
          match s with
          | EmptyString => false
          | String d s' => (Ascii.eqb c "?" || Ascii.eqb c d) && glob_match pat' s'
          end
  end.

Definition posix_runtime : Runtime :=
  {| fnmatch := fun n pat => glob_match pat n; lower := ascii_lower |}.

(** What a table says about one path. *)
Record node : Type := {
  n_listing : list DirEntry * option exn;
  n_is_dir : bool;
  n_stat : option stat_result;
  n_real : Path
}.

Fixpoint find_node (tbl : list (Path * node)) (p : Path) : option node :=
  match tbl with
  | [] => None
  | (q, nd) :: tbl' => if decide (q = p) then Some nd else find_node tbl' p
  end.

(** The file system a table describes; a path that is not in the table
    does not exist. *)
Definition table_fs (tbl : list (Path * node)) : FileSystem :=
  {| scandir := fun p =>
       match find_node tbl p with
       | Some nd => n_listing nd
       | None => ([], Some FileNotFoundError)
       end;
     Path_exists := fun p =>
       match find_node tbl p with Some _ => Yes | None => No end;
     Path_is_dir := fun p =>
       match find_node tbl p with
       | Some nd => if n_is_dir nd then Yes else No
       | None => No
       end;
     Path_stat := fun p =>
       match find_node tbl p with
       | Some nd => n_stat nd
       | None => None
       end;
     Path_resolve := fun p =>
       match find_node tbl p with
       | Some nd => n_real nd
       | None => p
       end |}.

Definition inode (i : Z) : option stat_result :=
  Some {| st_dev := Some 1; st_ino := Some i |}.

Definition dir_node (p : Path) (i : Z) (es : list DirEntry) : Path * node :=
  (p, {| n_listing := (es, None); n_is_dir := true; n_stat := inode i; n_real := p |}).

Definition file_node (p : Path) (i : Z) : Path * node :=
  (p, {| n_listing := ([], Some NotADirectoryError); n_is_dir := false;
         n_stat := inode i; n_real := p |}).

(** A symbolic link at [p] to the directory [target]: what [target] says,
    under the path [p]. *)
Definition link_node (p : Path) (target : Path * node) : Path * node :=
  (p, snd target).

Definition dir_entry (n : string) : DirEntry :=
  {| de_name := n; de_is_dir := fun _ => Some true |}.

Definition file_entry (n : string) : DirEntry :=
  {| de_name := n; de_is_dir := fun _ => Some false |}.

(** A symbolic link to a directory is one only when links are followed. *)
Definition dirlink_entry (n : string) : DirEntry :=
  {| de_name := n; de_is_dir := fun follow => Some follow |}.

(** [--hide-dot] absent and no other option: the defaults of [main]. *)
Definition default_filters : Filters :=
  {| show_hidden := true; dirs_only := false; pattern := None;
     ignore_names := []; ignore_globs := [] |}.

(** [/a] holds the empty directory [b] and the file [x.txt], listed in
    either order. *)
Definition fs_small (dir_first : bool) : FileSystem :=
  table_fs
    [ dir_node ["a"] 10
        (if dir_first then [dir_entry "b"; file_entry "x.txt"]
         else [file_entry "x.txt"; dir_entry "b"]);
      dir_node ["a"; "b"] 11 [];
      file_node ["a"; "x.txt"] 12 ].

(** [/a/b/c], a chain of three directories. *)
Definition fs_chain : FileSystem :=
  table_fs
    [ dir_node ["a"] 1 [dir_entry "b"];
      dir_node ["a"; "b"] 2 [dir_entry "c"];
      dir_node ["a"; "b"; "c"] 3 [] ].

(** [/a] listed [b] as a directory, and [b] is a regular file by the time
    it is opened: [os.scandir] raises [NotADirectoryError]. *)
Definition fs_replaced : FileSystem :=
  table_fs
    [ dir_node ["a"] 1 [dir_entry "b"];
      file_node ["a"; "b"] 2 ].


(** [/a] holds a directory that cannot be read, one that is gone when it is
    opened, an entry whose type check fails and a file. *)
Definition fs_denied : FileSystem :=
  table_fs
    [ dir_node ["a"] 1
        [ dir_entry "locked"; dir_entry "gone";
          {| de_name := "odd"; de_is_dir := fun _ => None |};
          file_entry "z.txt" ];
      (["a"; "locked"],
        {| n_listing := ([], Some PermissionError); n_is_dir := true;
           n_stat := inode 2; n_real := ["a"; "locked"] |});
      file_node ["a"; "z.txt"] 3 ].

(** [/a] holds the directory [real], the symbolic link [lnk] to it and a
    file. *)
Definition fs_dirlink : FileSystem :=
  table_fs
    [ dir_node ["a"] 1 [dirlink_entry "lnk"; file_entry "note.txt"; dir_entry "real"];
      dir_node ["a"; "real"] 2 [];
      link_node ["a"; "lnk"] (dir_node ["a"; "real"] 2 []);
      file_node ["a"; "note.txt"] 3 ].

Definition dirs_only_filters : Filters :=
  {| show_hidden := true; dirs_only := true; pattern := None;
     ignore_names := []; ignore_globs := [] |}.

(** [/r] holds the directory [a], which holds a file, and the symbolic
    link [b] to [a]. *)
Definition fs_twin : FileSystem :=
  table_fs
    [ dir_node ["r"] 1 [dirlink_entry "b"; dir_entry "a"];
      dir_node ["r"; "a"] 2 [file_entry "inner.txt"];
      link_node ["r"; "b"] (dir_node ["r"; "a"] 2 [file_entry "inner.txt"]);
      file_node ["r"; "a"; "inner.txt"] 3 ].

(** [/r/sub/up] is a symbolic link to [/r]; every path below it is the
    path it stands for. *)
Definition fs_loop : FileSystem :=
  {| scandir := fun p =>
       if Nat.even (List.length p) then ([dirlink_entry "up"], None)
       else ([dir_entry "sub"], None);
     Path_exists := fun _ => Yes;
     Path_is_dir := fun _ => Yes;
     Path_stat := fun p => inode (if Nat.even (List.length p) then 2 else 1);
     Path_resolve := fun p =>
       if Nat.even (List.length p) then ["r"; "sub"] else ["r"] |}.

(** ** Notions the statements use *)

(** The durable identity [mark_seen] looks up and inserts: the pair of
    device and inode when [stat] gives one, the resolved path otherwise. *)
Inductive dir_id : Type :=
  | ByInode (key : Z * Z)
  | ByRealpath (rp : string).

Definition identity (fs : FileSystem) (p : Path) : dir_id :=
  match Path_stat fs p with
  | Some s =>
      let key := (getattr (st_dev s) (-1), getattr (st_ino s) (-1)) in
      if decide (key ≠ (-1, -1)) then ByInode key
      else ByRealpath (path_str (Path_resolve fs p))
  | None => ByRealpath (path_str (Path_resolve fs p))
  end.

(** The identity is in the visited set. *)
Definition recorded (i : dir_id) (st : State) : Prop :=
  match i with
  | ByInode key => key ∈ seen_dirs st
  | ByRealpath rp => rp ∈ seen_realpaths st
  end.

(** The visited set of [st] is part of that of [st']. *)
Definition seen_grows (st st' : State) : Prop :=
  seen_dirs st ⊆ seen_dirs st' ∧ seen_realpaths st ⊆ seen_realpaths st'.

(** Every directory a listing can hand to [mark_seen] has its identity in
    the finite sets [K] and [R]: the file system is finite. *)
Definition covers (fs : FileSystem) (K : gset (Z * Z)) (R : gset string) : Prop :=
  ∀ d e, e ∈ fst (scandir fs d) → de_is_dir e true = Some true →
    recorded (identity fs (joinpath d (de_name e)))
      {| lines := []; seen_dirs := K; seen_realpaths := R |}.

(** [l] starts with [pre]. *)
Definition starts_with (pre l : string) : Prop := ∃ s, l = pre +:+ s.

(** The lines one directory contributes: for each entry from index [idx]
    on, its own line, then the lines of what is below it, all of them one
    level deeper. *)
Inductive children_lines (pre : string) (n : nat) :
    nat -> list (Path * bool) -> list string -> Prop :=
  | children_nil idx : children_lines pre n idx [] []
  | children_cons idx x rest below ls :
      Forall (starts_with (pre +:+ extension (Z.of_nat idx =? Z.of_nat n - 1))) below →
      children_lines pre n (S idx) rest ls →
      children_lines pre n idx (x :: rest)
        (entry_line pre (Z.of_nat idx =? Z.of_nat n - 1) x :: below ++ ls).

(** Directories first, then names in ascending order of their lower-case
    form: the order of the children of one directory. *)
Definition in_order (rt : Runtime) (x y : Path * bool) : Prop :=
  (snd y = true → snd x = true) ∧
  (snd x = snd y →
     String.leb (lower rt (name (fst x))) (lower rt (name (fst y))) = true).

(** The five exclusion rules of the filter, as the specification words
    them; the fifth asks the file system as [should_ignore] does. *)
Definition rule_hidden (p : Path) (flt : Filters) : Prop :=
  String.prefix "." (name p) = true ∧ show_hidden flt = false.

Definition rule_ignore_name (p : Path) (flt : Filters) : Prop :=
  name p ∈ ignore_names flt.

Definition rule_ignore_glob (rt : Runtime) (p : Path) (flt : Filters) : Prop :=
  ∃ g, g ∈ ignore_globs flt ∧ fnmatch rt (name p) g = true.


(** The same with "set" read as "set to a non-empty string". *)
Definition rule_pattern_nonempty (rt : Runtime) (p : Path) (flt : Filters) : Prop :=
  ∃ pat, pattern flt = Some pat ∧ pat ≠ "" ∧ fnmatch rt (name p) pat = false.

Definition rule_dirs_only (fs : FileSystem) (p : Path) (flt : Filters) : Prop :=
  dirs_only flt = true ∧ Path_is_dir fs p = No.


(** [x] may come before [y]: the key of [y] is not below that of [x]. *)
Definition key_le (k1 k2 : bool * string) : Prop := key_lt k2 k1 = false.

Definition entry_le (rt : Runtime) (x y : Path * bool) : Prop :=
  key_le (sort_key rt x) (sort_key rt y).

(** The identities of [K] and [R] the visited set does not hold yet. *)
Definition unseen (K : gset (Z * Z)) (R : gset string) (st : State) : nat :=
  (size (K ∖ seen_dirs st) + size (R ∖ seen_realpaths st))%nat.




(** The state [walk] starts from below the root [/a] when links are not
    followed. *)
Definition start_state : State :=
  {| lines := ["/a/"]; seen_dirs := ∅; seen_realpaths := ∅ |}.

(** ** Notions of the further properties *)

(** Lines 93 to 100 on what [os.scandir] yielded for [d]: the pairs in
    listing order, before the sort and the filter. *)
Definition raw_entries (fs : FileSystem) (follow : bool) (d : Path) : list (Path * bool) :=
  map (λ e, (joinpath d (de_name e), default false (de_is_dir e follow)))
      (fst (scandir fs d)).

(** A line below the root line starts with a branch glyph or with one
    level of indentation. *)
Definition glyph_start (l : string) : Prop :=
  starts_with "├── " l ∨ starts_with "└── " l
  ∨ starts_with "│   " l ∨ starts_with "    " l.

(** [flt'] is [flt] with more names and globs to ignore. *)
Definition ignores_more (flt flt' : Filters) : Prop :=
  show_hidden flt' = show_hidden flt
  ∧ dirs_only flt' = dirs_only flt
  ∧ pattern flt' = pattern flt
  ∧ ignore_names flt ⊆ ignore_names flt'
  ∧ ignore_globs flt ⊆ ignore_globs flt'.

(** [rank] goes down from a directory to each entry its listing gives as
    a directory: below every directory the tree is finite. *)
Definition descends (fs : FileSystem) (follow : bool) (rank : Path → nat) : Prop :=
  ∀ d e, e ∈ fst (scandir fs d) → de_is_dir e follow = Some true →
    (rank (joinpath d (de_name e)) < rank d)%nat.

(** The filter keeps [x]: line 103 on one entry whose test returns. *)
Definition kept (rt : Runtime) (fs : FileSystem) (flt : Filters) (x : Path * bool) : Prop :=
  should_ignore rt fs (fst x) flt = Done false.

(** The height of a path of [fs_chain] above [/a/b/c]. *)
Definition chain_height (p : Path) : nat := (3 - length p)%nat.

(** ** What a run opens, and what it starts from *)

(** Lines 67 to 69 and 123 to 125: the state [tree] hands to [walk] over
    the resolved root [r].  The list of lines and the two sets are made
    anew by every call of [tree]. *)
Definition fresh_state (fs : FileSystem) (follow : bool) (r : Path) : State :=
  let st := {| lines := [path_str r +:+ "/"]; seen_dirs := ∅; seen_realpaths := ∅ |} in
  if follow then snd (mark_seen fs r st) else st.

(** [opens ... fuel d pre depth st d']: the call [walk(d, pre, depth)] made
    in the state [st] lists the directory [d'].  It lists [d] itself when
    it is not cut off by the depth limit; and it lists what the recursive
    call for an entry [x] lists, when the loop gets as far as [x] (the
    entries [es1] before it went through), [x] is a directory that the
    visited set does not hold yet, and so [walk] is called on it. *)
Inductive opens (rt : Runtime) (fs : FileSystem) (flt : Filters)
    (max_depth : option Z) (follow : bool) :
    nat → Path → string → Z → State → Path → Prop :=
  | opens_here fuel d pre depth st :
      too_deep max_depth depth = false →
      opens rt fs flt max_depth follow (S fuel) d pre depth st d
  | opens_below fuel d pre depth st es es1 x es2 st1 st2 d' :
      too_deep max_depth depth = false →
      list_entries rt fs flt follow d = Done es →
      es = (es1 ++ x :: es2)%list →
      walk_entries fs follow (walk rt fs flt max_depth follow fuel)
        pre depth (length es) 0 es1 st = Done st1 →
      snd x = true →
      (if follow
       then mark_seen fs (fst x)
              (append_line st1
                 (entry_line pre (Z.of_nat (length es1) =? Z.of_nat (length es) - 1) x))
       else (false,
             append_line st1
               (entry_line pre (Z.of_nat (length es1) =? Z.of_nat (length es) - 1) x)))
      = (false, st2) →
      opens rt fs flt max_depth follow fuel (fst x)
        (pre +:+ extension (Z.of_nat (length es1) =? Z.of_nat (length es) - 1))
        (depth + 1) st2 d' →
      opens rt fs flt max_depth follow (S fuel) d pre depth st d'.

(** The run of [tree] over [root] lists the directory [d]. *)
Definition tree_opens (rt : Runtime) (fs : FileSystem) (flt : Filters)
    (max_depth : option Z) (follow : bool) (fuel : nat) (root d : Path) : Prop :=
  opens rt fs flt max_depth follow fuel (Path_resolve fs root) "" 1
    (fresh_state fs follow (Path_resolve fs root)) d.

(** The listing of [d] ends with [e], an error [safe_scandir] lets
    through. *)
Definition listing_fails (fs : FileSystem) (d : Path) (e : exn) : Prop :=
  snd (scandir fs d) = Some e ∧ e ≠ PermissionError ∧ e ≠ FileNotFoundError.

(** The filter raises [e] on an entry of the listing of [d]. *)
Definition filter_fails (rt : Runtime) (fs : FileSystem) (flt : Filters)
    (follow : bool) (d : Path) (e : exn) : Prop :=
  ∃ x, x ∈ raw_entries fs follow d ∧ should_ignore rt fs (fst x) flt = Raise e.



(** * Facts about the embedding *)

(** ** The order of the sort keys *)

Lemma ltb_false_leb (s1 s2 : string) :
  String.ltb s2 s1 = false ↔ String.leb s1 s2 = true.
Proof.
  unfold String.ltb, String.leb.
  rewrite (String.compare_antisym s2 s1).
  destruct (String.compare s1 s2); simpl; split; intros; try reflexivity; try discriminate.
Qed.

Lemma key_le_iff (k1 k2 : bool * string) :
  key_le k1 k2 ↔
    (fst k1 = false ∧ fst k2 = true) ∨
    (fst k1 = fst k2 ∧ String.leb (snd k1) (snd k2) = true).
Proof.
  destruct k1 as [[] s1], k2 as [[] s2]; unfold key_le, key_lt; simpl;
    rewrite ?ltb_false_leb; intuition congruence.
Qed.

Lemma leb_trans (s1 s2 s3 : string) :
  String.leb s1 s2 = true → String.leb s2 s3 = true → String.leb s1 s3 = true.
Proof.
  intros H12 H23.
  assert (String.le s1 s3) as H.
  { transitivity s2; unfold String.le; [rewrite H12 | rewrite H23]; exact I. }
  unfold String.le in H. destruct (String.leb s1 s3); [done | destruct H].
Qed.

Lemma key_le_trans (k1 k2 k3 : bool * string) :
  key_le k1 k2 → key_le k2 k3 → key_le k1 k3.
Proof.
  rewrite !key_le_iff.
  intros [[H1 H2] | [H1 H2]] [[H3 H4] | [H3 H4]]; try (left; split; congruence).
  right. split; [congruence | by eapply leb_trans].
Qed.

Lemma key_lt_le (k1 k2 : bool * string) : key_lt k1 k2 = true → key_le k1 k2.
Proof.
  destruct k1 as [[] s1], k2 as [[] s2]; unfold key_le, key_lt; simpl; try done.
  all: unfold String.ltb; rewrite (String.compare_antisym s2 s1);
    destruct (String.compare s1 s2); simpl; congruence.
Qed.

(** [in_order] is the order of the keys, read on the entries. *)
Lemma entry_le_in_order (rt : Runtime) (x y : Path * bool) :
  entry_le rt x y → in_order rt x y.
Proof.
  unfold entry_le, in_order, sort_key. rewrite key_le_iff. simpl.
  destruct (snd x), (snd y); simpl; intuition congruence.
Qed.

(** ** The stable sort *)

Section SortFacts.
Context {A : Type} (key : A → bool * string).

Lemma insert_sorted_elem (x y : A) (l : list A) :
  y ∈ insert_sorted key x l ↔ y = x ∨ y ∈ l.
Proof.
  induction l as [|z l IH]; simpl.
  - set_solver.
  - destruct (key_lt (key z) (key x)); set_solver.
Qed.

Lemma insert_sorted_sorted (x : A) (l : list A) :
  StronglySorted (λ x y, key_le (key x) (key y)) l →
  StronglySorted (λ x y, key_le (key x) (key y)) (insert_sorted key x l).
Proof.
  induction 1 as [|z l Hl IH Hz]; simpl.
  - repeat constructor.
  - destruct (key_lt (key z) (key x)) eqn:Hlt.
    + constructor; [exact IH |].
      apply Forall_forall. intros y Hy.
      apply insert_sorted_elem in Hy as [-> | Hy].
      * by apply key_lt_le.
      * rewrite Forall_forall in Hz. by apply Hz.
    + constructor; [by constructor |].
      constructor; [exact Hlt |].
      eapply Forall_impl; [exact Hz |].
      intros y Hy. eapply key_le_trans; [exact Hlt | exact Hy].
Qed.

Lemma sort_by_sorted (l : list A) :
  StronglySorted (λ x y, key_le (key x) (key y)) (sort_by key l).
Proof.
  induction l as [|x l IH]; simpl; [constructor | by apply insert_sorted_sorted].
Qed.

Lemma sort_by_elem (y : A) (l : list A) : y ∈ sort_by key l ↔ y ∈ l.
Proof.
  induction l as [|x l IH]; simpl; [done |].
  rewrite insert_sorted_elem, IH. set_solver.
Qed.

(** The sort rearranges the entries and loses none. *)
Lemma sort_by_Permutation (l : list A) : sort_by key l ≡ₚ l.
Proof.
  assert (∀ x k, insert_sorted key x k ≡ₚ x :: k) as Hins.
  { intros x k. induction k as [|z k IH]; simpl; [done |].
    destruct (key_lt (key z) (key x)); [| done].
    rewrite IH. apply Permutation_swap. }
  induction l as [|x l IH]; simpl; [done | by rewrite Hins, IH].
Qed.

Lemma sort_by_length (l : list A) : length (sort_by key l) = length l.
Proof.
  assert (∀ x k, length (insert_sorted key x k) = S (length k)) as Hins.
  { intros x k. induction k as [|z k IH]; simpl; [done |].
    destruct (key_lt (key z) (key x)); simpl; by rewrite ?IH. }
  induction l as [|x l IH]; simpl; [done | by rewrite Hins, IH].
Qed.
End SortFacts.

(** ** Outcomes *)

Lemma bind_done {A B : Type} (m : outcome A) (k : A → outcome B) (b : B) :
  bind m k = Done b ↔ ∃ a, m = Done a ∧ k a = Done b.
Proof.
  destruct m; simpl; naive_solver.
Qed.

Lemma bind_raise {A B : Type} (m : outcome A) (k : A → outcome B) (e : exn) :
  bind m k = Raise e ↔ m = Raise e ∨ ∃ a, m = Done a ∧ k a = Raise e.
Proof.
  destruct m; simpl; naive_solver.
Qed.

Lemma bind_out_of_fuel {A B : Type} (m : outcome A) (k : A → outcome B) :
  bind m k = OutOfFuel ↔ m = OutOfFuel ∨ ∃ a, m = Done a ∧ k a = OutOfFuel.
Proof.
  destruct m; simpl; naive_solver.
Qed.

(** ** Strings *)

Lemma append_assoc (s1 s2 s3 : string) : (s1 +:+ s2) +:+ s3 = s1 +:+ (s2 +:+ s3).
Proof.
  induction s1 as [|c s1 IH]; [done |].
  change (String c ((s1 +:+ s2) +:+ s3) = String c (s1 +:+ (s2 +:+ s3))).
  by rewrite IH.
Qed.

Lemma starts_with_append (pre s : string) : starts_with pre (pre +:+ s).
Proof. by exists s. Qed.

Lemma starts_with_shorter (pre ext l : string) :
  starts_with (pre +:+ ext) l → starts_with pre l.
Proof. intros [s ->]. exists (ext +:+ s). apply append_assoc. Qed.

Lemma children_lines_start (pre : string) (n idx : nat) es ls :
  children_lines pre n idx es ls → Forall (starts_with pre) ls.
Proof.
  induction 1 as [|idx x rest below ls Hbelow _ IH]; [constructor |].
  constructor; [apply starts_with_append |].
  apply Forall_app. split; [| exact IH].
  eapply Forall_impl; [exact Hbelow |]. intros l. apply starts_with_shorter.
Qed.

(** ** The visited set *)

Lemma seen_grows_refl (st : State) : seen_grows st st.
Proof. by split. Qed.

Lemma seen_grows_trans (st1 st2 st3 : State) :
  seen_grows st1 st2 → seen_grows st2 st3 → seen_grows st1 st3.
Proof. intros [? ?] [? ?]. split; by etrans. Qed.

Lemma seen_grows_append (st : State) (l : string) : seen_grows st (append_line st l).
Proof. by split. Qed.

Lemma recorded_grows (i : dir_id) (st st' : State) :
  seen_grows st st' → recorded i st → recorded i st'.
Proof. intros [Hd Hr]. destruct i; simpl; [apply Hd | apply Hr]. Qed.

Lemma recorded_append (i : dir_id) (st : State) (l : string) :
  recorded i (append_line st l) ↔ recorded i st.
Proof. by destruct i. Qed.

Lemma unseen_grows K R (st st' : State) :
  seen_grows st st' → (unseen K R st' ≤ unseen K R st)%nat.
Proof.
  intros [Hd Hr]. unfold unseen.
  assert (size (K ∖ seen_dirs st') ≤ size (K ∖ seen_dirs st))%nat
    by (apply subseteq_size; set_solver).
  assert (size (R ∖ seen_realpaths st') ≤ size (R ∖ seen_realpaths st))%nat
    by (apply subseteq_size; set_solver).
  lia.
Qed.

Section MarkSeen.
Context (fs : FileSystem).

Lemma mark_seen_recorded (p : Path) (st : State) :
  recorded (identity fs p) st → mark_seen fs p st = (true, st).
Proof.
  unfold mark_seen, identity.
  destruct (Path_stat fs p) as [s|]; simpl; repeat case_decide; simpl; done.
Qed.

Lemma mark_seen_true (p : Path) (st st' : State) :
  mark_seen fs p st = (true, st') → st' = st ∧ recorded (identity fs p) st.
Proof.
  unfold mark_seen, identity.
  destruct (Path_stat fs p) as [s|]; simpl; repeat case_decide; simpl;
    intros; by simplify_eq.
Qed.

Lemma mark_seen_false (p : Path) (st st' : State) :
  mark_seen fs p st = (false, st') →
  ¬ recorded (identity fs p) st ∧ recorded (identity fs p) st'
  ∧ seen_grows st st' ∧ lines st' = lines st.
Proof.
  unfold mark_seen, identity, seen_grows.
  destruct (Path_stat fs p) as [s|]; simpl; repeat case_decide; simpl;
    intros; simplify_eq; simpl; set_solver.
Qed.

Lemma mark_seen_lines (p : Path) (st : State) :
  lines (snd (mark_seen fs p st)) = lines st.
Proof.
  destruct (mark_seen fs p st) as [[] st'] eqn:H; simpl.
  - by apply mark_seen_true in H as [-> _].
  - by apply mark_seen_false in H as (_ & _ & _ & ->).
Qed.

Lemma mark_seen_grows (p : Path) (st : State) :
  seen_grows st (snd (mark_seen fs p st)).
Proof.
  destruct (mark_seen fs p st) as [[] st'] eqn:H; simpl.
  - apply mark_seen_true in H as [-> _]. apply seen_grows_refl.
  - by apply mark_seen_false in H as (_ & _ & ? & _).
Qed.

Lemma mark_seen_records (p : Path) (st : State) :
  recorded (identity fs p) (snd (mark_seen fs p st)).
Proof.
  destruct (mark_seen fs p st) as [[] st'] eqn:H; simpl.
  - by apply mark_seen_true in H as [-> ?].
  - by apply mark_seen_false in H as (_ & ? & _ & _).
Qed.

(** A directory met for the first time uses up one identity. *)
Lemma mark_seen_unseen K R (p : Path) (st st' : State) :
  recorded (identity fs p) {| lines := []; seen_dirs := K; seen_realpaths := R |} →
  mark_seen fs p st = (false, st') →
  (unseen K R st' < unseen K R st)%nat.
Proof.
  unfold mark_seen, identity, unseen.
  destruct (Path_stat fs p) as [s|]; simpl; repeat case_decide; simpl;
    intros HK ?; simplify_eq; simpl.
  - assert (size (K ∖ (seen_dirs st ∪ {[(getattr (st_dev s) (-1), getattr (st_ino s) (-1))]}))
            < size (K ∖ seen_dirs st))%nat by (apply subset_size; set_solver).
    lia.
  - assert (size (R ∖ (seen_realpaths st ∪ {[path_str (Path_resolve fs p)]}))
            < size (R ∖ seen_realpaths st))%nat by (apply subset_size; set_solver).
    lia.
  - assert (size (R ∖ (seen_realpaths st ∪ {[path_str (Path_resolve fs p)]}))
            < size (R ∖ seen_realpaths st))%nat by (apply subset_size; set_solver).
    lia.
Qed.
End MarkSeen.

(** ** The listing of one directory *)

Section Listing.
Context (rt : Runtime) (fs : FileSystem) (flt : Filters) (follow : bool).

Lemma safe_scandir_done (d : Path) (es : list DirEntry) :
  safe_scandir fs d = Done es → es = fst (scandir fs d).
Proof.
  unfold safe_scandir. destruct (scandir fs d) as [es' [[]|]]; simpl; congruence.
Qed.

Lemma safe_scandir_raise (d : Path) (e : exn) :
  safe_scandir fs d = Raise e →
  snd (scandir fs d) = Some e ∧ e ≠ PermissionError ∧ e ≠ FileNotFoundError.
Proof.
  unfold safe_scandir. intros H.
  destruct (scandir fs d) as [es' [[]|]]; simpl; by simplify_eq.
Qed.

Lemma safe_scandir_fuel (d : Path) : safe_scandir fs d ≠ OutOfFuel.
Proof. unfold safe_scandir. by destruct (scandir fs d) as [es' [[]|]]. Qed.

Lemma should_ignore_raise (p : Path) (e : exn) :
  should_ignore rt fs p flt = Raise e →
  dirs_only flt = true ∧ ∃ pe, Path_is_dir fs p = Fault pe ∧ e = exn_of_probe pe.
Proof.
  unfold should_ignore.
  repeat (match goal with |- context [if ?b then _ else _] => destruct b eqn:? end;
          try done).
  destruct (Path_is_dir fs p) as [| |pe] eqn:Hp; try done.
  intros [= <-]. eauto.
Qed.

Lemma should_ignore_fuel (p : Path) : should_ignore rt fs p flt ≠ OutOfFuel.
Proof.
  unfold should_ignore.
  repeat (match goal with |- context [if ?b then _ else _] => destruct b end;
          try done).
  by destruct (Path_is_dir fs p).
Qed.

Lemma drop_ignored_elem (es es' : list (Path * bool)) (x : Path * bool) :
  drop_ignored rt fs flt es = Done es' → x ∈ es' → x ∈ es.
Proof.
  revert es'. induction es as [|y es IH]; intros es' H Hx; simpl in H.
  - by simplify_eq.
  - apply bind_done in H as (ign & _ & H).
    apply bind_done in H as (rest' & Hrest & H). simplify_eq.
    destruct ign.
    + right. by eapply IH.
    + apply elem_of_cons in Hx as [-> | Hx]; [left | right; by eapply IH].
Qed.

Lemma drop_ignored_sorted (R : relation (Path * bool)) (es es' : list (Path * bool)) :
  StronglySorted R es → drop_ignored rt fs flt es = Done es' → StronglySorted R es'.
Proof.
  intros Hs. revert es'. induction Hs as [|y es Hs IH Hy]; intros es' H; simpl in H.
  - simplify_eq. constructor.
  - apply bind_done in H as (ign & _ & H).
    apply bind_done in H as (rest' & Hrest & H). simplify_eq.
    destruct ign; [by apply IH |].
    constructor; [by apply IH |].
    apply Forall_forall. intros x Hx. rewrite Forall_forall in Hy.
    apply Hy. by eapply drop_ignored_elem.
Qed.

Lemma drop_ignored_raise (es : list (Path * bool)) (e : exn) :
  drop_ignored rt fs flt es = Raise e →
  ∃ x, x ∈ es ∧ should_ignore rt fs (fst x) flt = Raise e.
Proof.
  induction es as [|y es IH]; intros H; simpl in H; [done |].
  apply bind_raise in H as [H | (ign & _ & H)]; [exists y; split; [by left | done] |].
  apply bind_raise in H as [H | (rest' & _ & H)]; [| done].
  destruct (IH H) as (x & Hx & Hr). exists x. split; [by right | done].
Qed.

Lemma drop_ignored_fuel (es : list (Path * bool)) :
  drop_ignored rt fs flt es ≠ OutOfFuel.
Proof.
  induction es as [|y es IH]; simpl; [done |]. intros H.
  apply bind_out_of_fuel in H as [H | (ign & _ & H)]; [by eapply should_ignore_fuel |].
  apply bind_out_of_fuel in H as [H | (rest' & _ & H)]; done.
Qed.

Lemma read_entries_done (d : Path) (es : list (Path * bool)) :
  read_entries fs follow d = Done es →
  es = map (λ e, (joinpath d (de_name e), default false (de_is_dir e follow)))
           (fst (scandir fs d)).
Proof.
  unfold read_entries. intros H. apply bind_done in H as (es0 & H0 & H).
  apply safe_scandir_done in H0. by simplify_eq.
Qed.

(** Every entry of the loop was yielded by the listing; it counts as a
    directory only when its type check said so. *)
Lemma list_entries_elem (d : Path) (es : list (Path * bool)) (x : Path * bool) :
  list_entries rt fs flt follow d = Done es → x ∈ es →
  ∃ e, e ∈ fst (scandir fs d) ∧ fst x = joinpath d (de_name e)
       ∧ snd x = default false (de_is_dir e follow).
Proof.
  unfold list_entries. intros H Hx.
  apply bind_done in H as (es0 & H0 & H).
  apply read_entries_done in H0.
  eapply drop_ignored_elem in Hx; [| exact H].
  apply sort_by_elem in Hx. subst es0.
  apply list_elem_of_fmap in Hx as (e & -> & He). eauto.
Qed.

Lemma list_entries_sorted (d : Path) (es : list (Path * bool)) :
  list_entries rt fs flt follow d = Done es → StronglySorted (entry_le rt) es.
Proof.
  unfold list_entries. intros H.
  apply bind_done in H as (es0 & _ & H).
  eapply drop_ignored_sorted; [| exact H].
  apply (sort_by_sorted (sort_key rt)).
Qed.

Lemma list_entries_raise (d : Path) (e : exn) :
  list_entries rt fs flt follow d = Raise e →
  listing_fails fs d e ∨ filter_fails rt fs flt follow d e.
Proof.
  unfold list_entries, read_entries. intros H.
  apply bind_raise in H as [H | (es0 & H0 & H)].
  - apply bind_raise in H as [H | (es1 & _ & H)]; [| done].
    left. by apply safe_scandir_raise.
  - right. apply drop_ignored_raise in H as (x & Hx & Hr).
    exists x. split; [| done]. apply sort_by_elem in Hx.
    apply bind_done in H0 as (es1 & H1 & H0). apply safe_scandir_done in H1.
    unfold raw_entries. by simplify_eq.
Qed.


Lemma list_entries_fuel (d : Path) : list_entries rt fs flt follow d ≠ OutOfFuel.
Proof.
  unfold list_entries, read_entries. intros H.
  apply bind_out_of_fuel in H as [H | (es0 & _ & H)].
  - apply bind_out_of_fuel in H as [H | (es1 & _ & H)]; [| done].
    by eapply safe_scandir_fuel.
  - by eapply drop_ignored_fuel.
Qed.
End Listing.

(** ** The loop and the recursion of [walk] *)

Section WalkFacts.
Context (rt : Runtime) (fs : FileSystem) (flt : Filters).
Context (max_depth : option Z) (follow : bool).

(** What holds of the state after the visited-set check of one entry. *)
Lemma check_state (p : Path) (st1 st2 : State) (seen : bool) :
  (if follow then mark_seen fs p st1 else (false, st1)) = (seen, st2) →
  seen_grows st1 st2 ∧ lines st2 = lines st1
  ∧ (follow = true → recorded (identity fs p) st2)
  ∧ (seen = true → follow = true ∧ st2 = st1).
Proof.
  destruct follow; intros H.
  - pose proof (mark_seen_grows fs p st1) as Hg.
    pose proof (mark_seen_lines fs p st1) as Hl.
    pose proof (mark_seen_records fs p st1) as Hr.
    rewrite H in Hg, Hl, Hr. simpl in *.
    split; [done |]. split; [done |]. split; [done |].
    intros ->. by apply mark_seen_true in H as [-> _].
  - simplify_eq. split; [apply seen_grows_refl | done].
Qed.

Section Loop.
Context (rec : Path → string → Z → State → outcome State).
Context (pre : string) (depth : Z) (n : nat).

Lemma walk_entries_grows (es : list (Path * bool)) (idx : nat) (st st' : State) :
  (∀ p P d s s', rec p P d s = Done s' → seen_grows s s') →
  walk_entries fs follow rec pre depth n idx es st = Done st' →
  seen_grows st st'.
Proof.
  intros Hrec. revert idx st.
  induction es as [|x rest IH]; intros idx st H; simpl in H.
  - simplify_eq. apply seen_grows_refl.
  - destruct (snd x).
    + destruct (if follow then _ else _) as [seen st2] eqn:Hm.
      apply check_state in Hm as (Hg & _ & _ & _).
      eapply seen_grows_trans; [apply seen_grows_append |].
      eapply seen_grows_trans; [exact Hg |].
      destruct seen.
      * eapply seen_grows_trans; [apply seen_grows_append | by eapply IH].
      * apply bind_done in H as (st3 & H3 & H).
        eapply seen_grows_trans; [by eapply Hrec | by eapply IH].
    + eapply seen_grows_trans; [apply seen_grows_append | by eapply IH].
Qed.

Lemma walk_entries_lines (es : list (Path * bool)) (idx : nat) (st st' : State) :
  (∀ p P d s s', rec p P d s = Done s' →
     ∃ ls, lines s' = lines s ++ ls ∧ Forall (starts_with P) ls) →
  walk_entries fs follow rec pre depth n idx es st = Done st' →
  ∃ ls, lines st' = lines st ++ ls ∧ children_lines pre n idx es ls.
Proof.
  intros Hrec. revert idx st.
  induction es as [|x rest IH]; intros idx st H; simpl in H.
  - simplify_eq. exists []. split; [by rewrite app_nil_r | constructor].
  - destruct (snd x).
    + destruct (if follow then _ else _) as [seen st2] eqn:Hm.
      apply check_state in Hm as (_ & Hl & _ & _).
      destruct seen.
      * apply IH in H as (ls & Hls & Hc). simpl in Hls.
        exists (entry_line pre (Z.of_nat idx =? Z.of_nat n - 1) x
                :: [cycle_line pre (Z.of_nat idx =? Z.of_nat n - 1)] ++ ls).
        split.
        { rewrite Hls, Hl. simpl. by rewrite <- !app_assoc. }
        constructor; [| exact Hc].
        constructor; [| constructor].
        eexists. unfold cycle_line. symmetry. apply append_assoc.
      * apply bind_done in H as (st3 & H3 & H).
        apply Hrec in H3 as (below & Hb & Hbelow).
        apply IH in H as (ls & Hls & Hc).
        exists (entry_line pre (Z.of_nat idx =? Z.of_nat n - 1) x :: below ++ ls).
        split.
        { rewrite Hls, Hb, Hl. simpl. by rewrite <- !app_assoc. }
        by constructor.
    + apply IH in H as (ls & Hls & Hc). simpl in Hls.
      exists (entry_line pre (Z.of_nat idx =? Z.of_nat n - 1) x :: [] ++ ls).
      split.
      { rewrite Hls. simpl. by rewrite <- !app_assoc. }
      by constructor.
Qed.

(** When the loop raises, it is a recursive call that does: the entries
    before went through, and the call was made on a directory that the
    visited set did not hold. *)
Lemma walk_entries_raise (es : list (Path * bool)) (idx : nat) (st : State) (e : exn) :
  walk_entries fs follow rec pre depth n idx es st = Raise e →
  ∃ es1 x es2 st1 st2,
    es = (es1 ++ x :: es2)%list
    ∧ walk_entries fs follow rec pre depth n idx es1 st = Done st1
    ∧ snd x = true
    ∧ (if follow
       then mark_seen fs (fst x)
              (append_line st1
                 (entry_line pre (Z.of_nat (idx + length es1) =? Z.of_nat n - 1) x))
       else (false,
             append_line st1
               (entry_line pre (Z.of_nat (idx + length es1) =? Z.of_nat n - 1) x)))
      = (false, st2)
    ∧ rec (fst x) (pre +:+ extension (Z.of_nat (idx + length es1) =? Z.of_nat n - 1))
        (depth + 1) st2 = Raise e.
Proof.
  revert idx st.
  induction es as [|y rest IH]; intros idx st H; simpl in H; [done |].
  assert (∀ st1', walk_entries fs follow rec pre depth n (S idx) rest st1' = Raise e →
            walk_entries fs follow rec pre depth n idx [y] st = Done st1' →
            ∃ es1 x es2 st1 st2,
              (y :: rest = es1 ++ x :: es2)%list
              ∧ walk_entries fs follow rec pre depth n idx es1 st = Done st1
              ∧ snd x = true
              ∧ (if follow
                 then mark_seen fs (fst x)
                        (append_line st1
                           (entry_line pre
                              (Z.of_nat (idx + length es1) =? Z.of_nat n - 1) x))
                 else (false,
                       append_line st1
                         (entry_line pre
                            (Z.of_nat (idx + length es1) =? Z.of_nat n - 1) x)))
                = (false, st2)
              ∧ rec (fst x)
                  (pre +:+ extension (Z.of_nat (idx + length es1) =? Z.of_nat n - 1))
                  (depth + 1) st2 = Raise e) as Hnext.
  { intros st1' Hrest Hy.
    destruct (IH _ _ Hrest) as (es1 & x & es2 & st1 & st2 & -> & H1 & Hx & Hm & Hr).
    exists (y :: es1), x, es2, st1, st2.
    replace (idx + length (y :: es1))%nat with (S idx + length es1)%nat by (simpl; lia).
    split; [done |]. split; [| done].
    simpl in Hy |- *. destruct (snd y).
    - destruct (if follow then _ else _) as [[] sty]; [by simplify_eq |].
      destruct (rec _ _ _ _); simpl in *; by simplify_eq.
    - by simplify_eq. }
  destruct (snd y) eqn:Hy.
  - destruct (if follow then _ else _) as [[] st2] eqn:Hm.
    + apply (Hnext _ H). simpl. by rewrite Hy, Hm.
    + apply bind_raise in H as [H | (st3 & H3 & H)].
      * exists [], y, rest, st, st2. rewrite Nat.add_0_r. by repeat split.
      * apply (Hnext _ H). simpl. by rewrite Hy, Hm, H3.
  - apply (Hnext _ H). simpl. by rewrite Hy.
Qed.
End Loop.

Lemma walk_grows (fuel : nat) (d : Path) (pre : string) (depth : Z) (st st' : State) :
  walk rt fs flt max_depth follow fuel d pre depth st = Done st' → seen_grows st st'.
Proof.
  revert d pre depth st st'.
  induction fuel as [|fuel IH]; intros d pre depth st st' H; simpl in H; [done |].
  destruct (too_deep max_depth depth).
  - simplify_eq. apply seen_grows_refl.
  - apply bind_done in H as (es & _ & H).
    eapply walk_entries_grows; [| exact H]. intros. by eapply IH.
Qed.

Lemma walk_lines (fuel : nat) (d : Path) (pre : string) (depth : Z) (st st' : State) :
  walk rt fs flt max_depth follow fuel d pre depth st = Done st' →
  ∃ ls, lines st' = lines st ++ ls ∧ Forall (starts_with pre) ls.
Proof.
  revert d pre depth st st'.
  induction fuel as [|fuel IH]; intros d pre depth st st' H; simpl in H; [done |].
  destruct (too_deep max_depth depth).
  - simplify_eq. exists []. split; [by rewrite app_nil_r | constructor].
  - apply bind_done in H as (es & _ & H).
    eapply walk_entries_lines in H as (ls & Hls & Hc); [| intros; by eapply IH].
    exists ls. split; [done | by eapply children_lines_start].
Qed.

(** The lines of one call of [walk] are those of the children of its
    directory, in the order of [list_entries]. *)
Lemma walk_children (fuel : nat) (d : Path) (pre : string) (depth : Z) (st st' : State) :
  walk rt fs flt max_depth follow fuel d pre depth st = Done st' →
  too_deep max_depth depth = false →
  ∃ es ls, list_entries rt fs flt follow d = Done es
           ∧ lines st' = lines st ++ ls
           ∧ children_lines pre (length es) 0 es ls.
Proof.
  destruct fuel as [|fuel]; intros H Hd; simpl in H; [done |].
  rewrite Hd in H. apply bind_done in H as (es & Hes & H).
  eapply walk_entries_lines in H as (ls & Hls & Hc);
    [| intros; by eapply walk_lines].
  eauto.
Qed.

(** An exception out of [walk] is that of a directory the call lists: an
    error of its listing that [safe_scandir] does not catch, or one of the
    filter on an entry of it. *)
Lemma walk_raise (fuel : nat) (d : Path) (pre : string) (depth : Z) (st : State) (e : exn) :
  walk rt fs flt max_depth follow fuel d pre depth st = Raise e →
  ∃ d', opens rt fs flt max_depth follow fuel d pre depth st d'
        ∧ (listing_fails fs d' e ∨ filter_fails rt fs flt follow d' e).
Proof.
  revert d pre depth st.
  induction fuel as [|fuel IH]; intros d pre depth st H; simpl in H; [done |].
  destruct (too_deep max_depth depth) eqn:Hdeep; [done |].
  apply bind_raise in H as [H | (es & Hes & H)].
  - exists d. split; [by constructor | by apply list_entries_raise].
  - apply walk_entries_raise in H
      as (es1 & x & es2 & st1 & st2 & Heq & H1 & Hx & Hm & Hr).
    apply IH in Hr as (d' & Hop & Hd').
    exists d'. split; [| done].
    by eapply (opens_below _ _ _ _ _ fuel d pre depth st es es1 x es2 st1 st2 d').
Qed.


(** Nothing is listed by a call below the depth limit. *)
Lemma opens_within_limit (fuel : nat) (d : Path) (pre : string) (depth : Z) (st : State)
    (d' : Path) :
  opens rt fs flt max_depth follow fuel d pre depth st d' →
  too_deep max_depth depth = false.
Proof. by destruct 1. Qed.



End WalkFacts.

(** ** Fuel *)

Section Fuel.
Context (rt : Runtime) (fs : FileSystem) (flt : Filters).
Context (max_depth : option Z) (follow : bool).

Lemma walk_unfold (fuel : nat) (d : Path) (pre : string) (depth : Z) (st : State) :
  walk rt fs flt max_depth follow (S fuel) d pre depth st =
    if too_deep max_depth depth then Done st
    else try es <- list_entries rt fs flt follow d in
         walk_entries fs follow (walk rt fs flt max_depth follow fuel)
           pre depth (length es) 0 es st.
Proof. reflexivity. Qed.




End Fuel.

(** ** Cycles and termination when links are followed *)

Section Cycles.
Context (rt : Runtime) (fs : FileSystem) (flt : Filters) (max_depth : option Z).

(** An entry whose identity is in the visited set gets its line and the
    cycle marker, and the loop goes on: [rec] is not called on it. *)
Lemma walk_entries_cycle (rec : Path → string → Z → State → outcome State)
    (pre : string) (depth : Z) (n idx : nat) (x : Path * bool)
    (rest : list (Path * bool)) (st : State) :
  snd x = true → recorded (identity fs (fst x)) st →
  walk_entries fs true rec pre depth n idx (x :: rest) st =
    walk_entries fs true rec pre depth n (S idx) rest
      (append_line
         (append_line st (entry_line pre (Z.of_nat idx =? Z.of_nat n - 1) x))
         (cycle_line pre (Z.of_nat idx =? Z.of_nat n - 1))).
Proof.
  intros Hx Hrec. simpl. rewrite Hx.
  rewrite mark_seen_recorded; [done |]. by apply recorded_append.
Qed.



Section Finite.
Context (K : gset (Z * Z)) (R : gset string).

Lemma unseen_bound (st : State) : (unseen K R st ≤ size K + size R)%nat.
Proof.
  unfold unseen.
  assert (size (K ∖ seen_dirs st) ≤ size K)%nat by (apply subseteq_size; set_solver).
  assert (size (R ∖ seen_realpaths st) ≤ size R)%nat by (apply subseteq_size; set_solver).
  lia.
Qed.

Lemma walk_entries_terminates (rec : Path → string → Z → State → outcome State)
    (pre : string) (depth : Z) (n f : nat) (es : list (Path * bool)) (idx : nat)
    (st : State) :
  (∀ p P d s, (unseen K R s < f)%nat → rec p P d s ≠ OutOfFuel) →
  (∀ p P d s s', rec p P d s = Done s' → seen_grows s s') →
  Forall (λ x, snd x = true → recorded (identity fs (fst x))
                {| lines := []; seen_dirs := K; seen_realpaths := R |}) es →
  (unseen K R st ≤ f)%nat →
  walk_entries fs true rec pre depth n idx es st ≠ OutOfFuel.
Proof.
  intros Hfuel Hgrow Hes. revert idx st.
  induction Hes as [|x rest Hx _ IH]; intros idx st Hst; simpl; [done |].
  destruct (snd x); [| by apply IH].
  destruct (mark_seen fs (fst x) _) as [[] st2] eqn:Hm.
  - apply mark_seen_true in Hm as [-> _]. by apply IH.
  - pose proof (mark_seen_unseen fs K R _ _ _ (Hx eq_refl) Hm) as Hlt.
    change (unseen K R (append_line st
              (entry_line pre (Z.of_nat idx =? Z.of_nat n - 1) x)))
      with (unseen K R st) in Hlt.
    intros H. apply bind_out_of_fuel in H as [H | (st3 & H3 & H)].
    + revert H. apply Hfuel. lia.
    + revert H. apply IH.
      apply Hgrow in H3. apply (unseen_grows K R) in H3. lia.
Qed.

Lemma walk_terminates (fuel : nat) (d : Path) (pre : string) (depth : Z) (st : State) :
  covers fs K R →
  (unseen K R st < fuel)%nat →
  walk rt fs flt max_depth true fuel d pre depth st ≠ OutOfFuel.
Proof.
  intros Hcov. revert d pre depth st.
  induction fuel as [|fuel IH]; intros d pre depth st Hst; [lia |].
  rewrite walk_unfold. destruct (too_deep max_depth depth); [done |].
  destruct (list_entries rt fs flt true d) as [es| |] eqn:Hes; simpl; [| done |].
  - apply (walk_entries_terminates _ _ _ _ fuel); [| | | lia].
    + intros. by apply IH.
    + intros. by eapply walk_grows.
    + apply Forall_forall. intros x Hin Hx.
      eapply list_entries_elem in Hin as (e & He & -> & Hd); [| exact Hes].
      apply Hcov; [done |].
      rewrite Hx in Hd. by destruct (de_is_dir e true) as [[]|].
  - by apply list_entries_fuel in Hes.
Qed.

Lemma tree_terminates (fuel : nat) (root : Path) :
  covers fs K R →
  (size K + size R < fuel)%nat →
  tree rt fs flt max_depth true fuel root ≠ OutOfFuel.
Proof.
  intros Hcov Hfuel. unfold tree.
  destruct (Path_exists fs (Path_resolve fs root)); [| done | done].
  destruct (Path_is_dir fs (Path_resolve fs root)); [| done | done].
  intros H. apply bind_out_of_fuel in H as [H | (st' & _ & H)]; [| done].
  revert H. apply walk_terminates; [done |].
  eapply Nat.le_lt_trans; [apply unseen_bound | done].
Qed.
End Finite.
End Cycles.

(** * The claims *)

(** ** Scenarios *)

(** C7: for the root [/a] holding exactly the empty directory [/a/b] and
    the regular file [/a/x.txt], [tree] with the default configuration (no
    filter, no [max_depth], links not followed) returns exactly the three
    lines [/a/], [├── b/] and [└── x.txt], in that order, whatever the
    order in which the directory lists its two entries. *)
Theorem C7_small_tree (rt : Runtime) (dir_first : bool) (fuel : nat) :
  tree rt (fs_small dir_first) default_filters None false (S (S fuel)) ["a"]
  = Done ["/a/"; "├── b/"; "└── x.txt"].
Proof. destruct dir_first; reflexivity. Qed.





(** ** Ordering *)

Lemma StronglySorted_lookup {A : Type} (R : relation A) (l : list A) (i j : nat) (x y : A) :
  StronglySorted R l → (i < j)%nat → l !! i = Some x → l !! j = Some y → R x y.
Proof.
  intros Hs. revert i j.
  induction Hs as [|z l Hs IH Hz]; intros i j Hij Hi Hj; [done |].
  destruct j as [|j]; [lia |]. simpl in Hj.
  destruct i as [|i]; simpl in Hi.
  - simplify_eq. rewrite Forall_forall in Hz. apply Hz.
    by eapply list_elem_of_lookup_2.
  - eapply (IH i j); [lia | done | done].
Qed.

(** C2: for every file system, filter, [max_depth] and link setting, the
    lines a call of [walk] adds are those of the children of its directory:
    for each entry of [list_entries], in that order, its own line and then
    the lines below it.  In that list every entry rendered as a directory
    comes before every entry rendered as a non-directory, and within each
    of the two groups the lower-cased names are in ascending order. *)
Theorem C2_children_order (rt : Runtime) (fs : FileSystem) (flt : Filters)
    (max_depth : option Z) (follow : bool) (fuel : nat) (d : Path) (pre : string)
    (depth : Z) (st st' : State) :
  walk rt fs flt max_depth follow fuel d pre depth st = Done st' →
  too_deep max_depth depth = false →
  ∃ es ls,
    list_entries rt fs flt follow d = Done es
    ∧ lines st' = lines st ++ ls
    ∧ children_lines pre (length es) 0 es ls
    ∧ ∀ i j x y, (i < j)%nat → es !! i = Some x → es !! j = Some y →
        in_order rt x y.
Proof.
  intros H Hd.
  destruct (walk_children _ _ _ _ _ _ _ _ _ _ _ H Hd) as (es & ls & Hes & Hls & Hc).
  exists es, ls. split; [done |]. split; [done |]. split; [done |].
  intros i j x y Hij Hi Hj.
  apply entry_le_in_order.
  eapply StronglySorted_lookup; [by eapply list_entries_sorted | done | done | done].
Qed.

(** The theorem at the walk of [/a] in [fs_small]. *)
Lemma C2_children_order_witness :
  ∃ es ls,
    list_entries posix_runtime (fs_small false) default_filters false ["a"] = Done es
    ∧ lines {| lines := ["/a/"; "├── b/"; "└── x.txt"];
               seen_dirs := ∅; seen_realpaths := ∅ |}
      = lines start_state ++ ls
    ∧ children_lines "" (length es) 0 es ls
    ∧ ∀ i j x y, (i < j)%nat → es !! i = Some x → es !! j = Some y →
        in_order posix_runtime x y.
Proof.
  apply (C2_children_order posix_runtime (fs_small false) default_filters None false
           2 ["a"] "" 1 start_state).
  - reflexivity.
  - reflexivity.
Defined.

(** ** Determinism *)




(** ** Errors *)

(** C3, the claim as stated fails: over [fs_replaced] the root [/a] exists
    and is a directory, and [tree] fails with [NotADirectoryError] all the
    same, raised by the listing of [/a/b] in the middle of the walk. *)
Lemma C3_counterexample :
  ¬ (tree posix_runtime fs_replaced default_filters None false 2 ["a"]
       = Raise NotADirectoryError
     ↔ Path_exists fs_replaced (Path_resolve fs_replaced ["a"]) = Yes
       ∧ Path_is_dir fs_replaced (Path_resolve fs_replaced ["a"]) = No).
Proof.
  intros [Hfail _].
  assert (Path_is_dir fs_replaced (Path_resolve fs_replaced ["a"]) = No) as Hno
    by (apply Hfail; reflexivity).
  vm_compute in Hno. discriminate.
Qed.

(** C3, amended, for a root on which [root.resolve()] returns: [tree]
    fails with [FileNotFoundError] if and only if [exists()] answers
    [False] for the resolved root, and it fails with [NotADirectoryError]
    when [exists()] answers [True] and [is_dir()] answers [False]; when one
    of the two raises instead, [tree] raises that error.  All these
    failures come before any traversal (they are there with no fuel at
    all, when no call of [walk] can return) and no line is returned.  A
    [NotADirectoryError] of [tree] over a root that is a directory is the
    error of the listing of a directory the walk opened, which
    [safe_scandir] does not catch. *)
Theorem C3_root_validation (rt : Runtime) (fs : FileSystem) (flt : Filters)
    (max_depth : option Z) (follow : bool) (root : Path) :
  (∀ fuel, tree rt fs flt max_depth follow fuel root = Raise FileNotFoundError
           ↔ Path_exists fs (Path_resolve fs root) = No)
  ∧ (∀ fuel, Path_exists fs (Path_resolve fs root) = Yes →
             Path_is_dir fs (Path_resolve fs root) = No →
             tree rt fs flt max_depth follow fuel root = Raise NotADirectoryError)
  ∧ (∀ fuel pe,
       Path_exists fs (Path_resolve fs root) = Fault pe
       ∨ (Path_exists fs (Path_resolve fs root) = Yes
          ∧ Path_is_dir fs (Path_resolve fs root) = Fault pe) →
       tree rt fs flt max_depth follow fuel root = Raise (exn_of_probe pe))
  ∧ (Path_exists fs (Path_resolve fs root) = No →
       tree rt fs flt max_depth follow 0 root = Raise FileNotFoundError)
  ∧ (Path_exists fs (Path_resolve fs root) = Yes →
     Path_is_dir fs (Path_resolve fs root) = No →
       tree rt fs flt max_depth follow 0 root = Raise NotADirectoryError)
  ∧ (∀ fuel, tree rt fs flt max_depth follow fuel root = Raise NotADirectoryError →
             (Path_exists fs (Path_resolve fs root) = Yes
              ∧ Path_is_dir fs (Path_resolve fs root) = No)
             ∨ (Path_exists fs (Path_resolve fs root) = Yes
                ∧ Path_is_dir fs (Path_resolve fs root) = Yes
                ∧ ∃ d, tree_opens rt fs flt max_depth follow fuel root d
                       ∧ listing_fails fs d NotADirectoryError)).
Proof.
  assert (∀ fuel e, tree rt fs flt max_depth follow fuel root = Raise e →
            e ≠ PermissionError → e ≠ OSError →
            (Path_exists fs (Path_resolve fs root) = No ∧ e = FileNotFoundError)
            ∨ (Path_exists fs (Path_resolve fs root) = Yes
               ∧ Path_is_dir fs (Path_resolve fs root) = No ∧ e = NotADirectoryError)
            ∨ (Path_exists fs (Path_resolve fs root) = Yes
               ∧ Path_is_dir fs (Path_resolve fs root) = Yes
               ∧ ∃ d, tree_opens rt fs flt max_depth follow fuel root d
                      ∧ listing_fails fs d e))
    as Hcases.
  { intros fuel e H Hp Ho. unfold tree in H.
    destruct (Path_exists fs (Path_resolve fs root)) as [| |[]];
      [| left; split; congruence | simpl in H; congruence | simpl in H; congruence].
    destruct (Path_is_dir fs (Path_resolve fs root)) as [| |[]];
      [| right; left; repeat split; congruence
       | simpl in H; congruence | simpl in H; congruence].
    right. right. split; [done |]. split; [done |].
    apply bind_raise in H as [H | (st' & _ & H)]; [| done].
    apply walk_raise in H as (d & Hop & [Hl | (x & _ & Hf)]); [by exists d |].
    apply should_ignore_raise in Hf as (_ & pe & _ & ->).
    destruct pe; simpl in *; congruence. }
  split; [| split; [| split; [| split; [| split]]]].
  - intros fuel. split.
    + intros H.
      apply Hcases in H as [[? _] | [(_ & _ & ?) | (_ & _ & d & _ & _ & _ & ?)]];
        done.
    + intros H. unfold tree. by rewrite H.
  - intros fuel He Hd. unfold tree. by rewrite He, Hd.
  - intros fuel pe [He | [He Hd]]; unfold tree; [by rewrite He | by rewrite He, Hd].
  - intros He. unfold tree. by rewrite He.
  - intros He Hd. unfold tree. by rewrite He, Hd.
  - intros fuel H. apply Hcases in H as [[_ ?] | [(? & ? & _) | (? & ? & ?)]];
      try done; auto.
Qed.

(** The theorem at a root that does not exist. *)
Lemma C3_root_validation_witness :
  tree posix_runtime fs_chain default_filters None false 0 ["missing"]
  = Raise FileNotFoundError.
Proof.
  apply (proj1 (proj2 (proj2 (proj2
    (C3_root_validation posix_runtime fs_chain default_filters None false ["missing"]))))).
  reflexivity.
Defined.





(** With the limit 1 the run over the chain [/a/b/c] opens the root and
    nothing else: what lies at the limit or below is not listed. *)
Example chain_opens_root_only (follow : bool) (d : Path) :
  tree_opens posix_runtime fs_chain default_filters (Some 1) follow 3 ["a"] d →
  d = ["a"].
Proof.
  unfold tree_opens. intros H. inversion H; subst; [done |].
  match goal with
  | Hsub : opens _ _ _ _ _ _ _ _ (1 + 1) _ _ |- _ =>
      apply opens_within_limit in Hsub; vm_compute in Hsub; discriminate
  end.
Qed.

(** The walk over [fs_denied] goes past the unreadable directory, the
    vanished one and the entry whose type check fails. *)
Example walk_past_failures (follow : bool) :
  tree posix_runtime fs_denied default_filters None follow 3 ["a"]
  = Done ["/a/"; "├── gone/"; "├── locked/"; "├── odd"; "└── z.txt"].
Proof. destruct follow; reflexivity. Qed.

(** ** Symbolic links and the filter *)

(** C6, on the failing input: links are not followed and [dirs_only] is
    on.  The link [lnk] to a directory is sorted after the directories,
    rendered without the trailing slash and not entered, as a
    non-directory; the filter, which asks [Path.is_dir] and so follows the
    link, takes it for a directory and keeps it. *)
Theorem C6_dirs_only_keeps_link :
  should_ignore posix_runtime fs_dirlink ["a"; "lnk"] dirs_only_filters = Done false
  ∧ list_entries posix_runtime fs_dirlink dirs_only_filters false ["a"]
    = Done [(["a"; "real"], true); (["a"; "lnk"], false)]
  ∧ tree posix_runtime fs_dirlink dirs_only_filters None false 3 ["a"]
    = Done ["/a/"; "├── real/"; "└── lnk"].
Proof. repeat split; reflexivity. Qed.

(** ** The filter *)


Lemma existsb_eqb_elem (n : string) (l : list string) :
  existsb (String.eqb n) l = true ↔ n ∈ l.
Proof.
  rewrite existsb_exists. split.
  - intros (x & Hx & Heq). apply String.eqb_eq in Heq as ->. by apply list_elem_of_In.
  - intros H. exists n. split; [by apply list_elem_of_In | apply String.eqb_refl].
Qed.

Lemma matches_any_glob_rule (rt : Runtime) (p : Path) (flt : Filters) :
  matches_any_glob rt (name p) (ignore_globs flt) = true ↔ rule_ignore_glob rt p flt.
Proof.
  unfold matches_any_glob, rule_ignore_glob. rewrite existsb_exists.
  split; intros (g & Hg & Hm); exists g; (split; [by apply list_elem_of_In | done]).
Qed.

Lemma pattern_rule (rt : Runtime) (p : Path) (flt : Filters) :
  truthy (pattern flt) && negb (fnmatch rt (name p) (default "" (pattern flt))) = true
  ↔ rule_pattern_nonempty rt p flt.
Proof.
  unfold rule_pattern_nonempty. destruct (pattern flt) as [[|c pat]|]; simpl.
  - split; [done | by intros (pat & [= <-] & ? & _)].
  - rewrite negb_true_iff. split.
    + intros H. by exists (String c pat).
    + by intros (pat' & [= <-] & _ & ?).
  - split; [done | by intros (pat & ? & _)].
Qed.



(** ** Cycle detection *)

(** The loop calls [rec] on a directory only once its identity is in the
    visited set: a [rec'] that agrees with [rec] on such states gives the
    same run. *)
Lemma walk_entries_marks_first (fs : FileSystem)
    (rec rec' : Path → string → Z → State → outcome State)
    (pre : string) (depth : Z) (n : nat) (es : list (Path * bool)) (idx : nat)
    (st : State) :
  (∀ p P d s, recorded (identity fs p) s → rec p P d s = rec' p P d s) →
  walk_entries fs true rec pre depth n idx es st
  = walk_entries fs true rec' pre depth n idx es st.
Proof.
  intros Hrec. revert idx st.
  induction es as [|x rest IH]; intros idx st; simpl; [done |].
  destruct (snd x); [| apply IH].
  pose proof (mark_seen_records fs (fst x)
    (append_line st (entry_line pre (Z.of_nat idx =? Z.of_nat n - 1) x))) as Hr.
  destruct (mark_seen fs (fst x) _) as [[] st2]; simpl in Hr; [apply IH |].
  rewrite (Hrec _ _ _ _ Hr).
  destruct (rec' _ _ _ _); simpl; [apply IH | done | done].
Qed.

Lemma tree_starts_recorded (rt : Runtime) (fs : FileSystem) (flt : Filters)
    (max_depth : option Z) (fuel : nat) (root : Path) :
  Path_exists fs (Path_resolve fs root) = Yes →
  Path_is_dir fs (Path_resolve fs root) = Yes →
  ∃ st0,
    recorded (identity fs (Path_resolve fs root)) st0
    ∧ tree rt fs flt max_depth true fuel root
      = try st' <- walk rt fs flt max_depth true fuel (Path_resolve fs root) "" 1 st0
        in Done (lines st').
Proof.
  intros He Hd. unfold tree. rewrite He, Hd.
  eexists. split; [| reflexivity]. apply mark_seen_records.
Qed.

(** The directories of [fs_loop] have two identities. *)
Lemma covers_fs_loop : covers fs_loop {[ (1, 1); (1, 2) ]} ∅.
Proof.
  intros d e _ _. unfold identity, fs_loop. simpl.
  destruct (Nat.even _); simpl; set_solver.
Qed.

(** C1: links being followed, [tree] returns on every finite file system,
    that is whenever the identities of the directories its listings hold
    lie in finite sets [K] and [R], and [size K + size R + 1] levels of
    recursion are enough.  The root is in the visited set when its walk
    starts, the loop calls [walk] on a directory only after its identity
    was put in the visited set, and [walk] never takes an identity out: so
    every ancestor of the directory being listed is recorded.  An entry
    that is a directory with the identity of a recorded directory [anc], as
    a symbolic link to an ancestor is, then adds its own line and exactly
    one cycle-marker line, and the loop goes on with the next entry with
    no call of [walk] for it.  On [fs_loop], where [/r/sub/up] links back to
    [/r], this gives the four lines shown. *)
Theorem C1_link_to_ancestor (rt : Runtime) (fs : FileSystem) (flt : Filters)
    (max_depth : option Z) :
  (∀ K R fuel root,
     covers fs K R → (size K + size R < fuel)%nat →
     tree rt fs flt max_depth true fuel root ≠ OutOfFuel)
  ∧ (∀ fuel root,
       Path_exists fs (Path_resolve fs root) = Yes →
       Path_is_dir fs (Path_resolve fs root) = Yes →
       ∃ st0,
         recorded (identity fs (Path_resolve fs root)) st0
         ∧ tree rt fs flt max_depth true fuel root
           = try st' <- walk rt fs flt max_depth true fuel (Path_resolve fs root) "" 1 st0
             in Done (lines st'))
  ∧ (∀ rec rec' pre depth n idx es st,
       (∀ p P d s, recorded (identity fs p) s → rec p P d s = rec' p P d s) →
       walk_entries fs true rec pre depth n idx es st
       = walk_entries fs true rec' pre depth n idx es st)
  ∧ (∀ fuel d pre depth st st' i,
       walk rt fs flt max_depth true fuel d pre depth st = Done st' →
       recorded i st → recorded i st')
  ∧ (∀ rec pre depth n idx x rest st anc,
       recorded (identity fs anc) st →
       identity fs (fst x) = identity fs anc →
       snd x = true →
       walk_entries fs true rec pre depth n idx (x :: rest) st
       = walk_entries fs true rec pre depth n (S idx) rest
           (append_line
              (append_line st (entry_line pre (Z.of_nat idx =? Z.of_nat n - 1) x))
              (cycle_line pre (Z.of_nat idx =? Z.of_nat n - 1))))
  ∧ tree rt fs_loop default_filters None true 3 ["r"]
    = Done ["/r/"; "└── sub/"; "    └── up/"; "        ↩︎ (cycle)"].
Proof.
  split; [| split; [| split; [| split; [| split]]]].
  - intros K R fuel root Hcov Hfuel. by eapply tree_terminates.
  - intros. by apply tree_starts_recorded.
  - intros. by apply walk_entries_marks_first.
  - intros fuel d pre depth st st' i H Hi.
    eapply recorded_grows; [by eapply walk_grows | done].
  - intros rec pre depth n idx x rest st anc Hanc Hid Hx.
    apply walk_entries_cycle; [done | by rewrite Hid].
  - reflexivity.
Qed.

(** The theorem at [fs_loop], which has two directory identities. *)
Lemma C1_link_to_ancestor_witness :
  tree posix_runtime fs_loop default_filters None true 3 ["r"] ≠ OutOfFuel.
Proof.
  apply (proj1 (C1_link_to_ancestor posix_runtime fs_loop default_filters None)
           {[ (1, 1); (1, 2) ]} ∅ 3%nat ["r"]).
  - apply covers_fs_loop.
  - vm_compute. lia.
Defined.



(** * Further properties of the code *)

(** ** The filter and the listing *)

Section FilterFacts.
Context (rt : Runtime) (fs : FileSystem) (flt : Filters).

Lemma drop_ignored_elem_iff (es es' : list (Path * bool)) (x : Path * bool) :
  drop_ignored rt fs flt es = Done es' →
  (x ∈ es' ↔ x ∈ es ∧ should_ignore rt fs (fst x) flt = Done false).
Proof.
  revert es'. induction es as [|y es IH]; intros es' H; simpl in H.
  - simplify_eq. split; [by intros ?%elem_of_nil | by intros [?%elem_of_nil _]].
  - apply bind_done in H as (ign & Hign & H).
    apply bind_done in H as (rest' & Hrest & H). simplify_eq.
    specialize (IH rest' Hrest). rewrite elem_of_cons.
    destruct ign.
    + rewrite IH. split; [naive_solver |].
      intros [[-> | Hin] Hx]; [congruence | done].
    + rewrite elem_of_cons, IH. split; [| naive_solver].
      intros [-> | [? ?]]; [split; [by left | done] | split; [by right | done]].
Qed.

(** No rule of the filter holds of an entry [should_ignore] keeps. *)
Lemma should_ignore_false_rules (p : Path) :
  should_ignore rt fs p flt = Done false →
  ¬ rule_hidden p flt ∧ ¬ rule_ignore_name p flt ∧ ¬ rule_ignore_glob rt p flt
  ∧ ¬ rule_pattern_nonempty rt p flt ∧ ¬ rule_dirs_only fs p flt.
Proof.
  pose proof (existsb_eqb_elem (name p) (ignore_names flt)) as Hname.
  pose proof (matches_any_glob_rule rt p flt) as Hglob.
  pose proof (pattern_rule rt p flt) as Hpat.
  unfold rule_hidden, rule_ignore_name, rule_dirs_only in *.
  unfold should_ignore, is_hidden.
  destruct (show_hidden flt), (String.prefix "." (name p)); simpl; try done;
    destruct (existsb _ _); try done;
    destruct (matches_any_glob _ _ _); try done;
    destruct (truthy _ && _); try done;
    destruct (dirs_only flt), (Path_is_dir fs p); naive_solver.
Qed.
End FilterFacts.

(** [list_entries] keeps exactly the entries of the listing that the
    filter does not exclude: nothing is added, nothing else is lost. *)
Theorem list_entries_exact (rt : Runtime) (fs : FileSystem) (flt : Filters)
    (follow : bool) (d : Path) (es : list (Path * bool)) (x : Path * bool) :
  list_entries rt fs flt follow d = Done es →
  (x ∈ es ↔
   x ∈ raw_entries fs follow d ∧ should_ignore rt fs (fst x) flt = Done false).
Proof.
  unfold list_entries. intros H.
  apply bind_done in H as (es0 & H0 & H).
  apply read_entries_done in H0. subst es0.
  rewrite (drop_ignored_elem_iff _ _ _ _ _ x H), sort_by_elem. done.
Qed.

(** The theorem at the directory [b] of [fs_small]. *)
Lemma list_entries_exact_witness :
  (["a"; "b"], true) ∈ raw_entries (fs_small false) false ["a"]
  ∧ should_ignore posix_runtime (fs_small false) ["a"; "b"] default_filters = Done false.
Proof.
  apply (proj1 (list_entries_exact posix_runtime (fs_small false) default_filters false
                  ["a"] [(["a"; "b"], true); (["a"; "x.txt"], false)]
                  (["a"; "b"], true) eq_refl)).
  left.
Defined.

(** Every entry [walk] renders bears the name of an entry of the listing
    and passes each test of the filter: it is not hidden when hidden
    entries are not shown, its name is no ignored name and matches no
    ignored glob, it matches the pattern when there is a non-empty one,
    and [Path.is_dir] takes it for a directory when [dirs_only] is on. *)
Theorem kept_entries_pass_filter (rt : Runtime) (fs : FileSystem) (flt : Filters)
    (follow : bool) (d : Path) (es : list (Path * bool)) (x : Path * bool) :
  list_entries rt fs flt follow d = Done es →
  x ∈ es →
  (∃ e, e ∈ fst (scandir fs d) ∧ name (fst x) = de_name e)
  ∧ (show_hidden flt = false → is_hidden (fst x) = false)
  ∧ (name (fst x) ∉ ignore_names flt)
  ∧ (∀ g, g ∈ ignore_globs flt → fnmatch rt (name (fst x)) g = false)
  ∧ (∀ pat, pattern flt = Some pat → pat ≠ "" → fnmatch rt (name (fst x)) pat = true)
  ∧ (dirs_only flt = true → Path_is_dir fs (fst x) = Yes).
Proof.
  intros Hes Hin.
  destruct (list_entries_elem _ _ _ _ _ _ _ Hes Hin) as (e & He & Hp & _).
  apply (list_entries_exact _ _ _ _ _ _ x Hes) in Hin as [_ Hkeep].
  pose proof (should_ignore_false_rules _ _ _ _ Hkeep) as (Hh & Hn & Hg & Hpat & Hd).
  split; [| split; [| split; [| split; [| split]]]].
  - exists e. split; [done |]. rewrite Hp. apply last_last.
  - intros Hs. unfold is_hidden. destruct (String.prefix "." _) eqn:Hpre; [| done].
    destruct Hh. by split.
  - exact Hn.
  - intros g Hgin. destruct (fnmatch rt _ g) eqn:Hm; [| done].
    destruct Hg. by exists g.
  - intros pat Hpt Hne. destruct (fnmatch rt _ pat) eqn:Hm; [done |].
    destruct Hpat. by exists pat.
  - intros Hon. unfold should_ignore in Hkeep.
    repeat (match type of Hkeep with
            | (if ?b then _ else _) = _ => destruct b; [done |]
            end).
    rewrite Hon in Hkeep. by destruct (Path_is_dir fs (fst x)).
Qed.

(** The theorem at the file [x.txt] of [fs_small]. *)
Lemma kept_entries_pass_filter_witness :
  (∃ e, e ∈ fst (scandir (fs_small false) ["a"]) ∧ name ["a"; "x.txt"] = de_name e)
  ∧ (show_hidden default_filters = false → is_hidden ["a"; "x.txt"] = false)
  ∧ (name ["a"; "x.txt"] ∉ ignore_names default_filters)
  ∧ (∀ g, g ∈ ignore_globs default_filters →
          fnmatch posix_runtime (name ["a"; "x.txt"]) g = false)
  ∧ (∀ pat, pattern default_filters = Some pat → pat ≠ "" →
            fnmatch posix_runtime (name ["a"; "x.txt"]) pat = true)
  ∧ (dirs_only default_filters = true → Path_is_dir (fs_small false) ["a"; "x.txt"] = Yes).
Proof.
  apply (kept_entries_pass_filter posix_runtime (fs_small false) default_filters false
           ["a"] [(["a"; "b"], true); (["a"; "x.txt"], false)]
           (["a"; "x.txt"], false) eq_refl).
  right. left.
Defined.

(** Ignoring more names and more globs never brings an entry back: what
    the filter keeps under the longer lists it keeps under the shorter
    ones, and what it excludes under the shorter ones stays excluded. *)
Theorem ignoring_more_keeps_less (rt : Runtime) (fs : FileSystem)
    (flt flt' : Filters) (p : Path) :
  ignores_more flt flt' →
  (should_ignore rt fs p flt' = Done false → should_ignore rt fs p flt = Done false)
  ∧ (should_ignore rt fs p flt = Done true → should_ignore rt fs p flt' = Done true).
Proof.
  intros (Hs & Hd & Hp & Hn & Hg).
  assert (existsb (String.eqb (name p)) (ignore_names flt) = true →
          existsb (String.eqb (name p)) (ignore_names flt') = true) as Hnames.
  { rewrite !existsb_eqb_elem. apply Hn. }
  assert (matches_any_glob rt (name p) (ignore_globs flt) = true →
          matches_any_glob rt (name p) (ignore_globs flt') = true) as Hglobs.
  { unfold matches_any_glob. rewrite !existsb_exists.
    intros (g & Hin & Hm). exists g. split; [| done].
    apply list_elem_of_In, Hg, list_elem_of_In, Hin. }
  unfold should_ignore. rewrite Hs, Hd, Hp.
  destruct (negb (show_hidden flt) && is_hidden p); [done |].
  destruct (existsb _ (ignore_names flt)); [rewrite Hnames by done; done |].
  destruct (matches_any_glob rt _ (ignore_globs flt));
    [rewrite Hglobs by done; by destruct (existsb _ _) |].
  destruct (existsb _ (ignore_names flt')); [done |].
  destruct (matches_any_glob rt _ (ignore_globs flt')); [done |].
  done.
Qed.

(** The theorem at [x.txt], with [x.txt] added to the ignored names. *)
Lemma ignoring_more_keeps_less_witness :
  (should_ignore posix_runtime (fs_small true) ["a"; "x.txt"]
     {| show_hidden := true; dirs_only := false; pattern := None;
        ignore_names := ["x.txt"]; ignore_globs := [] |} = Done false →
   should_ignore posix_runtime (fs_small true) ["a"; "x.txt"] default_filters = Done false)
  ∧ (should_ignore posix_runtime (fs_small true) ["a"; "x.txt"] default_filters = Done true →
     should_ignore posix_runtime (fs_small true) ["a"; "x.txt"]
       {| show_hidden := true; dirs_only := false; pattern := None;
          ignore_names := ["x.txt"]; ignore_globs := [] |} = Done true).
Proof.
  apply ignoring_more_keeps_less.
  unfold ignores_more. simpl. repeat split; try reflexivity.
  intros y Hy. by apply elem_of_nil in Hy.
Defined.

(** ** The sort *)

Lemma leb_refl (s : string) : String.leb s s = true.
Proof.
  assert (String.le s s) as H by reflexivity.
  unfold String.le in H. destruct (String.leb s s); [done | destruct H].
Qed.

Lemma key_lt_irrefl (k : bool * string) : key_lt k k = false.
Proof.
  destruct k as [[] s]; unfold key_lt; simpl; apply ltb_false_leb, leb_refl.
Qed.

Lemma key_le_antisym (k1 k2 : bool * string) : key_le k1 k2 → key_le k2 k1 → k1 = k2.
Proof.
  rewrite !key_le_iff. destruct k1 as [b1 s1], k2 as [b2 s2]. simpl.
  intros [[? ?] | [? H12]] [[? ?] | [? H21]]; try congruence.
  f_equal; [done |]. by apply String.leb_antisym.
Qed.

Section SortMore.
Context {A : Type} (key : A → bool * string).

Lemma insert_sorted_filter (k : bool * string) (x : A) (l : list A) :
  filter (λ y, key y = k) (insert_sorted key x l) = filter (λ y, key y = k) (x :: l).
Proof.
  induction l as [|z l IH]; simpl; [done |].
  destruct (key_lt (key z) (key x)) eqn:Hlt; [| done].
  rewrite (filter_cons _ z), IH, !filter_cons.
  destruct (decide (key x = k)) as [Hx | Hx]; [| done].
  destruct (decide (key z = k)) as [Hz | Hz]; [| done].
  rewrite Hx, Hz, key_lt_irrefl in Hlt. done.
Qed.

Lemma sort_by_filter (k : bool * string) (l : list A) :
  filter (λ y, key y = k) (sort_by key l) = filter (λ y, key y = k) l.
Proof.
  induction l as [|x l IH]; simpl; [done |].
  by rewrite insert_sorted_filter, !filter_cons, IH.
Qed.
End SortMore.

(** The sort of [walk] is stable: the entries that have one and the same
    key, directories or not and the same lower-cased name, come out in the
    order in which the listing gave them. *)
Theorem sort_is_stable (rt : Runtime) (k : bool * string) (es : list (Path * bool)) :
  filter (λ x, sort_key rt x = k) (sort_by (sort_key rt) es)
  = filter (λ x, sort_key rt x = k) es.
Proof. apply sort_by_filter. Qed.

(** When no two entries have the same key, the order in which the
    directory lists them does not matter: the sort gives one and the same
    list for every order. *)
Theorem sort_forgets_listing_order (rt : Runtime) (es1 es2 : list (Path * bool)) :
  es1 ≡ₚ es2 →
  (∀ x y, x ∈ es1 → y ∈ es1 → sort_key rt x = sort_key rt y → x = y) →
  sort_by (sort_key rt) es1 = sort_by (sort_key rt) es2.
Proof.
  intros Hperm Hinj.
  apply (StronglySorted_unique_strong
           (λ x y, key_le (sort_key rt x) (sort_key rt y))).
  - intros x y Hx Hy Hxy Hyx.
    apply sort_by_elem in Hx. apply sort_by_elem in Hy. rewrite <- Hperm in Hy.
    apply Hinj; [done | done |]. by apply key_le_antisym.
  - apply sort_by_sorted.
  - apply sort_by_sorted.
  - by rewrite !sort_by_Permutation.
Qed.

(** The theorem at the two orders of the listing of [/a] in [fs_small]. *)
Lemma sort_forgets_listing_order_witness :
  sort_by (sort_key posix_runtime) [(["a"; "b"], true); (["a"; "x.txt"], false)]
  = sort_by (sort_key posix_runtime) [(["a"; "x.txt"], false); (["a"; "b"], true)].
Proof.
  apply sort_forgets_listing_order.
  - apply Permutation_swap.
  - intros x y Hx Hy.
    repeat (apply elem_of_cons in Hx as [-> | Hx]);
      repeat (apply elem_of_cons in Hy as [-> | Hy]);
      try (by apply elem_of_nil in Hx); try (by apply elem_of_nil in Hy);
      vm_compute; congruence.
Defined.

(** ** The visited set *)

(** Once [mark_seen] has looked a directory up, every path with the same
    identity is found: the second call answers [True] and adds nothing. *)
Theorem mark_seen_finds_marked (fs : FileSystem) (p q : Path) (st : State) :
  identity fs q = identity fs p →
  mark_seen fs q (snd (mark_seen fs p st)) = (true, snd (mark_seen fs p st)).
Proof.
  intros Hid. apply mark_seen_recorded. rewrite Hid. apply mark_seen_records.
Qed.

(** The theorem at the link [/r/b] of [fs_twin] and the directory [/r/a]
    it points to. *)
Lemma mark_seen_finds_marked_witness :
  mark_seen fs_twin ["r"; "b"]
    (snd (mark_seen fs_twin ["r"; "a"]
            {| lines := []; seen_dirs := ∅; seen_realpaths := ∅ |}))
  = (true, snd (mark_seen fs_twin ["r"; "a"]
                  {| lines := []; seen_dirs := ∅; seen_realpaths := ∅ |})).
Proof.
  apply mark_seen_finds_marked. reflexivity.
Defined.

Section NoFollow.
Context (rt : Runtime) (fs : FileSystem) (flt : Filters) (max_depth : option Z).

Lemma walk_entries_no_follow (rec : Path → string → Z → State → outcome State)
    (pre : string) (depth : Z) (n : nat) (es : list (Path * bool)) (idx : nat)
    (st st' : State) :
  (∀ p P d s s', rec p P d s = Done s' →
     seen_dirs s' = seen_dirs s ∧ seen_realpaths s' = seen_realpaths s) →
  walk_entries fs false rec pre depth n idx es st = Done st' →
  seen_dirs st' = seen_dirs st ∧ seen_realpaths st' = seen_realpaths st.
Proof.
  intros Hrec. revert idx st.
  induction es as [|x rest IH]; intros idx st H; simpl in H; [by simplify_eq |].
  destruct (snd x).
  - apply bind_done in H as (st3 & H3 & H).
    apply Hrec in H3 as [Hd Hr]. apply IH in H as [-> ->]. by rewrite Hd, Hr.
  - by apply IH in H as [-> ->].
Qed.

(** When links are not followed the visited set is never touched:
    [mark_seen] is not called, whatever the tree holds. *)
Theorem no_follow_keeps_visited_set (fuel : nat) (d : Path) (pre : string) (depth : Z)
    (st st' : State) :
  walk rt fs flt max_depth false fuel d pre depth st = Done st' →
  seen_dirs st' = seen_dirs st ∧ seen_realpaths st' = seen_realpaths st.
Proof.
  revert d pre depth st st'.
  induction fuel as [|fuel IH]; intros d pre depth st st' H; [done |].
  rewrite walk_unfold in H.
  destruct (too_deep max_depth depth); [by simplify_eq |].
  apply bind_done in H as (es & _ & H).
  eapply walk_entries_no_follow; [| exact H]. intros. by eapply IH.
Qed.
End NoFollow.

(** The theorem at the walk of [/r] in [fs_twin], links not followed. *)
Lemma no_follow_keeps_visited_set_witness :
  seen_dirs {| lines := ["├── a/"; "│   └── inner.txt"; "└── b"];
               seen_dirs := ∅; seen_realpaths := ∅ |} = ∅
  ∧ seen_realpaths {| lines := ["├── a/"; "│   └── inner.txt"; "└── b"];
                      seen_dirs := ∅; seen_realpaths := ∅ |} = ∅.
Proof.
  apply (no_follow_keeps_visited_set posix_runtime fs_twin default_filters None 3
           ["r"] "" 1 {| lines := []; seen_dirs := ∅; seen_realpaths := ∅ |}).
  reflexivity.
Defined.

(** ** Termination without the visited set *)

Section Returns.
Context (rt : Runtime) (fs : FileSystem) (flt : Filters).
Context (max_depth : option Z) (follow : bool).

(** The loop returns when the recursive calls it makes return. *)
Lemma walk_entries_returns (rec : Path → string → Z → State → outcome State)
    (pre : string) (depth : Z) (n : nat) (es : list (Path * bool)) (idx : nat)
    (st : State) :
  (∀ x P s, x ∈ es → snd x = true → rec (fst x) P (depth + 1) s ≠ OutOfFuel) →
  walk_entries fs follow rec pre depth n idx es st ≠ OutOfFuel.
Proof.
  revert idx st.
  induction es as [|x rest IH]; intros idx st Hrec; simpl; [done |].
  assert (∀ y P s, y ∈ rest → snd y = true → rec (fst y) P (depth + 1) s ≠ OutOfFuel)
    as Hrest by (intros y P s Hy; apply Hrec; by right).
  destruct (snd x) eqn:Hx; [| by apply IH].
  destruct (if follow then _ else _) as [[] st2]; [by apply IH |].
  intros H. apply bind_out_of_fuel in H as [H | (st3 & _ & H)].
  - revert H. apply Hrec; [by left | done].
  - revert H. by apply IH.
Qed.

Lemma walk_returns_within_depth (m : Z) (fuel : nat) (d : Path) (pre : string)
    (depth : Z) (st : State) :
  max_depth = Some m →
  (Z.to_nat (m + 1 - depth) < fuel)%nat →
  walk rt fs flt max_depth follow fuel d pre depth st ≠ OutOfFuel.
Proof.
  intros ->. revert d pre depth st.
  induction fuel as [|fuel IH]; intros d pre depth st Hfuel; [lia |].
  rewrite walk_unfold. simpl.
  destruct (Z.gtb_spec depth m) as [Hgt | Hle]; [done |].
  destruct (list_entries rt fs flt follow d) as [es| |] eqn:Hes; simpl; [| done |].
  - apply walk_entries_returns. intros x P s _ _. apply IH. lia.
  - by apply list_entries_fuel in Hes.
Qed.

Lemma walk_returns_by_rank (rank : Path → nat) (fuel : nat) (d : Path) (pre : string)
    (depth : Z) (st : State) :
  descends fs follow rank →
  (rank d < fuel)%nat →
  walk rt fs flt max_depth follow fuel d pre depth st ≠ OutOfFuel.
Proof.
  intros Hrank. revert d pre depth st.
  induction fuel as [|fuel IH]; intros d pre depth st Hfuel; [lia |].
  rewrite walk_unfold. destruct (too_deep max_depth depth); [done |].
  destruct (list_entries rt fs flt follow d) as [es| |] eqn:Hes; simpl; [| done |].
  - apply walk_entries_returns. intros x P s Hin Hx. apply IH.
    destruct (list_entries_elem _ _ _ _ _ _ _ Hes Hin) as (e' & He' & Hp' & Hd').
    rewrite Hp'. rewrite Hx in Hd'.
    assert (de_is_dir e' follow = Some true) as Hdir
      by (by destruct (de_is_dir e' follow) as [[]|]).
    pose proof (Hrank d e' He' Hdir). lia.
  - by apply list_entries_fuel in Hes.
Qed.
End Returns.

(** With a depth limit [m], [tree] returns within [m + 1] levels of
    recursion on every file system, finite or not, and whether links are
    followed or not. *)
Theorem tree_returns_within_depth (rt : Runtime) (fs : FileSystem) (flt : Filters)
    (follow : bool) (m : Z) (fuel : nat) (root : Path) :
  (Z.to_nat m < fuel)%nat →
  tree rt fs flt (Some m) follow fuel root ≠ OutOfFuel.
Proof.
  intros Hfuel. unfold tree.
  destruct (Path_exists fs (Path_resolve fs root)); [| done | done].
  destruct (Path_is_dir fs (Path_resolve fs root)); [| done | done].
  intros H. apply bind_out_of_fuel in H as [H | (st' & _ & H)]; [| done].
  revert H. apply (walk_returns_within_depth _ _ _ _ _ m); [done |].
  replace (m + 1 - 1) with m by lia. done.
Qed.

(** The theorem at [fs_loop], whose link leads back to the root, with the
    limit 2. *)
Lemma tree_returns_within_depth_witness :
  tree posix_runtime fs_loop default_filters (Some 2) true 3 ["r"] ≠ OutOfFuel.
Proof.
  apply tree_returns_within_depth. vm_compute. lia.
Defined.

(** Whether links are followed or not, [tree] returns when the
    directories nest finitely: with a rank that goes down from each
    directory to the entries listed as directories in it, the rank of the
    root bounds the levels of recursion.  No link has to be followed and
    no limit set for that. *)
Theorem tree_returns_on_finite_tree (rt : Runtime) (fs : FileSystem) (flt : Filters)
    (max_depth : option Z) (follow : bool) (rank : Path → nat) (fuel : nat)
    (root : Path) :
  descends fs follow rank →
  (rank (Path_resolve fs root) < fuel)%nat →
  tree rt fs flt max_depth follow fuel root ≠ OutOfFuel.
Proof.
  intros Hrank Hfuel. unfold tree.
  destruct (Path_exists fs (Path_resolve fs root)); [| done | done].
  destruct (Path_is_dir fs (Path_resolve fs root)); [| done | done].
  intros H. apply bind_out_of_fuel in H as [H | (st' & _ & H)]; [| done].
  revert H. by apply (walk_returns_by_rank _ _ _ _ _ rank).
Qed.

(** The paths of [fs_chain] go down in [chain_height]. *)
Lemma descends_chain_height (follow : bool) : descends fs_chain follow chain_height.
Proof.
  intros d e He _. unfold fs_chain, table_fs, dir_node in He. simpl in He.
  repeat case_decide; simpl in He; subst;
    repeat (apply elem_of_cons in He as [-> | He]); try (by apply elem_of_nil in He);
    vm_compute; lia.
Qed.

(** The theorem at the chain [/a/b/c], links not followed. *)
Lemma tree_returns_on_finite_tree_witness :
  tree posix_runtime fs_chain default_filters None false 3 ["a"] ≠ OutOfFuel.
Proof.
  apply (tree_returns_on_finite_tree posix_runtime fs_chain default_filters None false
           chain_height).
  - apply descends_chain_height.
  - vm_compute. lia.
Defined.

(** ** The shape of the output *)

Lemma children_lines_glyphs (n idx : nat) (es : list (Path * bool)) (ls : list string) :
  children_lines "" n idx es ls → Forall glyph_start ls.
Proof.
  induction 1 as [|idx x rest below ls Hbelow _ IH]; [constructor |].
  constructor.
  - unfold entry_line, glyph_start.
    destruct (Z.of_nat idx =? Z.of_nat n - 1); [right; left | left]; by eexists.
  - apply Forall_app. split; [| exact IH].
    eapply Forall_impl; [exact Hbelow |]. intros l Hl. unfold glyph_start.
    destruct (Z.of_nat idx =? Z.of_nat n - 1); simpl in Hl; auto.
Qed.

(** Whatever the filters, the depth limit and the tree, the first line
    [tree] returns is the resolved root followed by a slash, and every
    other line starts with a branch glyph or with one level of
    indentation. *)
Theorem tree_output_shape (rt : Runtime) (fs : FileSystem) (flt : Filters)
    (max_depth : option Z) (follow : bool) (fuel : nat) (root : Path)
    (ls : list string) :
  tree rt fs flt max_depth follow fuel root = Done ls →
  ∃ rest, ls = (path_str (Path_resolve fs root) +:+ "/") :: rest
          ∧ Forall glyph_start rest.
Proof.
  unfold tree. intros H.
  destruct (Path_exists fs (Path_resolve fs root)); [| done | done].
  destruct (Path_is_dir fs (Path_resolve fs root)); [| done | done].
  apply bind_done in H as (st' & Hw & H). simplify_eq.
  assert (∀ st0, lines st0 = [path_str (Path_resolve fs root) +:+ "/"] →
            walk rt fs flt max_depth follow fuel (Path_resolve fs root) "" 1 st0 = Done st' →
            ∃ rest, lines st' = (path_str (Path_resolve fs root) +:+ "/") :: rest
                    ∧ Forall glyph_start rest) as Hshape.
  { intros st0 Hl Hw0. destruct fuel as [|fuel]; [done |].
    destruct (too_deep max_depth 1) eqn:Hd.
    - rewrite walk_unfold, Hd in Hw0. simplify_eq. exists []. by split.
    - destruct (walk_children _ _ _ _ _ _ _ _ _ _ _ Hw0 Hd) as (es & rest & _ & Hls & Hc).
      exists rest. rewrite Hls, Hl. split; [done |]. by eapply children_lines_glyphs. }
  destruct follow; (eapply Hshape; [| exact Hw]); [apply mark_seen_lines | done].
Qed.

(** The theorem at [fs_twin], links being followed. *)
Lemma tree_output_shape_witness :
  ∃ rest, ["/r/"; "├── a/"; "│   └── inner.txt"; "└── b/"; "    ↩︎ (cycle)"]
          = (path_str (Path_resolve fs_twin ["r"]) +:+ "/") :: rest
          ∧ Forall glyph_start rest.
Proof.
  apply (tree_output_shape posix_runtime fs_twin default_filters None true 3 ["r"]).
  reflexivity.
Defined.

(** Below a valid root that is not cut off by the depth limit, [tree]
    returns the root line alone exactly when no entry of the root is left
    by the filter: an empty directory, an unreadable one and one whose
    entries are all excluded look the same. *)
Theorem tree_root_line_alone (rt : Runtime) (fs : FileSystem) (flt : Filters)
    (max_depth : option Z) (follow : bool) (fuel : nat) (root : Path) :
  Path_exists fs (Path_resolve fs root) = Yes →
  Path_is_dir fs (Path_resolve fs root) = Yes →
  too_deep max_depth 1 = false →
  (tree rt fs flt max_depth follow (S fuel) root
     = Done [path_str (Path_resolve fs root) +:+ "/"]
   ↔ list_entries rt fs flt follow (Path_resolve fs root) = Done []).
Proof.
  intros He Hd Hdeep. unfold tree. rewrite He, Hd.
  set (st0 := if follow then _ else _).
  assert (lines st0 = [path_str (Path_resolve fs root) +:+ "/"]) as Hl0
    by (unfold st0; destruct follow; [apply mark_seen_lines | done]).
  split.
  - intros H. apply bind_done in H as (st' & Hw & H). simplify_eq.
    destruct (walk_children _ _ _ _ _ _ _ _ _ _ _ Hw Hdeep) as (es & ls & Hes & Hls & Hc).
    rewrite Hes. rewrite Hl0, H in Hls.
    destruct Hc as [|idx x rest below ls' _ _]; [done |].
    apply (f_equal length) in Hls. simpl in Hls. lia.
  - intros Hes. rewrite walk_unfold, Hdeep, Hes. simpl. by rewrite Hl0.
Qed.

(** The theorem at the unreadable directory [/a/locked] of [fs_denied]. *)
Lemma tree_root_line_alone_witness :
  tree posix_runtime fs_denied default_filters None false 1 ["a"; "locked"]
    = Done [path_str (Path_resolve fs_denied ["a"; "locked"]) +:+ "/"]
  ↔ list_entries posix_runtime fs_denied default_filters false
      (Path_resolve fs_denied ["a"; "locked"]) = Done [].
Proof.
  apply (tree_root_line_alone posix_runtime fs_denied default_filters None false 0
           ["a"; "locked"]); reflexivity.
Defined.

(** ** Exceptions *)

(** With [dirs_only] off, an [OSError] that [tree] raises over a valid
    root is the error with which the listing of a directory ended that the
    walk opened, and it is neither a [PermissionError] nor a
    [FileNotFoundError]: these two never leave [tree], whatever the
    listings do. *)
Theorem tree_raises_listing_errors_only (rt : Runtime) (fs : FileSystem) (flt : Filters)
    (max_depth : option Z) (follow : bool) (fuel : nat) (root : Path) (e : exn) :
  dirs_only flt = false →
  Path_exists fs (Path_resolve fs root) = Yes →
  Path_is_dir fs (Path_resolve fs root) = Yes →
  tree rt fs flt max_depth follow fuel root = Raise e →
  (∃ d, tree_opens rt fs flt max_depth follow fuel root d
        ∧ snd (scandir fs d) = Some e)
  ∧ e ≠ PermissionError ∧ e ≠ FileNotFoundError.
Proof.
  intros Hoff He Hd H. unfold tree in H. rewrite He, Hd in H.
  apply bind_raise in H as [H | (st' & _ & H)]; [| done].
  apply walk_raise in H as (d & Hop & [(Hs & Hp & Hn) | (x & _ & Hf)]).
  - split; [by exists d | done].
  - apply should_ignore_raise in Hf as [Hon _]. congruence.
Qed.

(** The theorem at [fs_replaced], where the listing of [/a/b] raises
    [NotADirectoryError]. *)
Lemma tree_raises_listing_errors_only_witness :
  (∃ d, tree_opens posix_runtime fs_replaced default_filters None false 2 ["a"] d
        ∧ snd (scandir fs_replaced d) = Some NotADirectoryError)
  ∧ NotADirectoryError ≠ PermissionError ∧ NotADirectoryError ≠ FileNotFoundError.
Proof.
  apply (tree_raises_listing_errors_only posix_runtime fs_replaced default_filters None
           false 2 ["a"]); reflexivity.
Defined.

(** ** Sorting and filtering *)

Section SortFilter.
Context {A : Type} (key : A → bool * string).
Context (P : A → Prop) `{!∀ x, Decision (P x)}.

Lemma insert_sorted_front (x : A) (l : list A) :
  Forall (λ w, key_le (key x) (key w)) l → insert_sorted key x l = x :: l.
Proof.
  destruct 1 as [|z l Hz _]; simpl; [done |].
  unfold key_le in Hz. by rewrite Hz.
Qed.

Lemma filter_insert_sorted (x : A) (l : list A) :
  StronglySorted (λ a b, key_le (key a) (key b)) l →
  filter P (insert_sorted key x l)
  = if decide (P x) then insert_sorted key x (filter P l) else filter P l.
Proof.
  induction 1 as [|z l Hs IH Hz]; simpl.
  - rewrite filter_cons, filter_nil. by destruct (decide (P x)).
  - destruct (key_lt (key z) (key x)) eqn:Hlt.
    + rewrite !(filter_cons _ z), IH.
      destruct (decide (P z)); [| done].
      destruct (decide (P x)); [| done]. simpl. by rewrite Hlt.
    + rewrite (filter_cons _ x).
      destruct (decide (P x)); [| done].
      symmetry. apply insert_sorted_front.
      apply Forall_forall. intros w Hw.
      apply list_elem_of_filter in Hw as [_ Hw].
      apply elem_of_cons in Hw as [-> | Hw]; [exact Hlt |].
      rewrite Forall_forall in Hz.
      eapply key_le_trans; [exact Hlt | by apply Hz].
Qed.

Lemma filter_sort_by (l : list A) :
  filter P (sort_by key l) = sort_by key (filter P l).
Proof.
  induction l as [|x l IH]; simpl; [done |].
  rewrite filter_insert_sorted by apply sort_by_sorted.
  rewrite filter_cons. destruct (decide (P x)); simpl; by rewrite IH.
Qed.
End SortFilter.

Section DropIgnored.
Context (rt : Runtime) (fs : FileSystem) (flt : Filters).

Lemma kept_dec (x : Path * bool) : Decision (kept rt fs flt x).
Proof.
  unfold kept. destruct (should_ignore rt fs (fst x) flt) as [[]| |];
    [right | left | right | right]; congruence.
Defined.

Lemma drop_ignored_done (es es' : list (Path * bool)) :
  drop_ignored rt fs flt es = Done es' →
  es' = @filter _ _ _ (kept rt fs flt) kept_dec es
  ∧ Forall (λ x, ∃ b, should_ignore rt fs (fst x) flt = Done b) es.
Proof.
  revert es'. induction es as [|y es IH]; intros es' H; simpl in H.
  - simplify_eq. by split.
  - apply bind_done in H as (ign & Hign & H).
    apply bind_done in H as (rest' & Hrest & H). simplify_eq.
    destruct (IH rest' Hrest) as [-> Hall].
    split; [| constructor; eauto].
    rewrite filter_cons.
    destruct (decide (kept rt fs flt y)) as [Hk | Hk]; unfold kept in Hk;
      destruct ign; congruence.
Qed.

Lemma drop_ignored_all_done (es : list (Path * bool)) :
  Forall (λ x, ∃ b, should_ignore rt fs (fst x) flt = Done b) es →
  drop_ignored rt fs flt es = Done (@filter _ _ _ (kept rt fs flt) kept_dec es).
Proof.
  induction 1 as [|y es [b Hb] _ IH]; simpl; [done |].
  rewrite Hb, IH. simpl. rewrite filter_cons.
  destruct (decide (kept rt fs flt y)) as [Hk | Hk]; unfold kept in Hk;
    destruct b; congruence.
Qed.
End DropIgnored.

(** [walk] sorts the listing and then filters it; filtering first and
    sorting what is left gives the same entries in the same order,
    whenever the filter returns on every entry. *)
Theorem sort_then_filter_is_filter_then_sort (rt : Runtime) (fs : FileSystem)
    (flt : Filters) (es es' : list (Path * bool)) :
  drop_ignored rt fs flt es = Done es' →
  drop_ignored rt fs flt (sort_by (sort_key rt) es) = Done (sort_by (sort_key rt) es').
Proof.
  intros H. apply drop_ignored_done in H as [-> Hall].
  rewrite drop_ignored_all_done.
  - by rewrite filter_sort_by.
  - apply Forall_forall. intros x Hx. apply sort_by_elem in Hx.
    rewrite Forall_forall in Hall. by apply Hall.
Qed.

(** The theorem at the listing of [/a] in [fs_dirlink] under [dirs_only]. *)
Lemma sort_then_filter_is_filter_then_sort_witness :
  drop_ignored posix_runtime fs_dirlink dirs_only_filters
    (sort_by (sort_key posix_runtime) (raw_entries fs_dirlink false ["a"]))
  = Done (sort_by (sort_key posix_runtime) [(["a"; "lnk"], false); (["a"; "real"], true)]).
Proof.
  apply sort_then_filter_is_filter_then_sort. reflexivity.
Defined.

(** ** A depth limit that is deep enough *)

Section DeepEnough.
Context (rt : Runtime) (fs : FileSystem) (flt : Filters) (follow : bool).

Lemma walk_entries_same_calls (rec1 rec2 : Path → string → Z → State → outcome State)
    (pre : string) (depth : Z) (n : nat) (es : list (Path * bool)) (idx : nat)
    (st : State) :
  (∀ x P s, x ∈ es → snd x = true →
     rec1 (fst x) P (depth + 1) s = rec2 (fst x) P (depth + 1) s) →
  walk_entries fs follow rec1 pre depth n idx es st
  = walk_entries fs follow rec2 pre depth n idx es st.
Proof.
  revert idx st.
  induction es as [|x rest IH]; intros idx st Hrec; simpl; [done |].
  assert (∀ y P s, y ∈ rest → snd y = true →
            rec1 (fst y) P (depth + 1) s = rec2 (fst y) P (depth + 1) s)
    as Hrest by (intros y P s Hy; apply Hrec; by right).
  destruct (snd x) eqn:Hx; [| by apply IH].
  destruct (if follow then _ else _) as [[] st2]; [by apply IH |].
  rewrite (Hrec x) by (by left || done).
  destruct (rec2 _ _ _ _); simpl; [by apply IH | done | done].
Qed.

Lemma walk_deep_enough (rank : Path → nat) (m : Z) (fuel : nat) (d : Path)
    (pre : string) (depth : Z) (st : State) :
  descends fs follow rank →
  Z.of_nat (rank d) + depth ≤ m →
  walk rt fs flt (Some m) follow fuel d pre depth st
  = walk rt fs flt None follow fuel d pre depth st.
Proof.
  intros Hrank. revert d pre depth st.
  induction fuel as [|fuel IH]; intros d pre depth st Hm; [done |].
  rewrite !walk_unfold. simpl.
  destruct (Z.gtb_spec depth m) as [Hgt | _]; [lia |].
  destruct (list_entries rt fs flt follow d) as [es| |] eqn:Hes; simpl; [| done | done].
  apply walk_entries_same_calls. intros x P s Hin Hx. apply IH.
  destruct (list_entries_elem _ _ _ _ _ _ _ Hes Hin) as (e & He & Hp & Hd).
  rewrite Hp. rewrite Hx in Hd.
  assert (de_is_dir e follow = Some true) as Hdir
    by (by destruct (de_is_dir e follow) as [[]|]).
  pose proof (Hrank d e He Hdir). lia.
Qed.
End DeepEnough.

(** A depth limit above the height of the tree changes nothing: when
    every chain of directories below the root is shorter than the limit,
    [tree] returns what it returns with no limit. *)
Theorem deep_limit_changes_nothing (rt : Runtime) (fs : FileSystem) (flt : Filters)
    (follow : bool) (rank : Path → nat) (m : Z) (fuel : nat) (root : Path) :
  descends fs follow rank →
  Z.of_nat (rank (Path_resolve fs root)) < m →
  tree rt fs flt (Some m) follow fuel root = tree rt fs flt None follow fuel root.
Proof.
  intros Hrank Hm. unfold tree.
  destruct (Path_exists fs (Path_resolve fs root)); [| done | done].
  destruct (Path_is_dir fs (Path_resolve fs root)); [| done | done].
  by rewrite (walk_deep_enough rt fs flt follow rank m) by (done || lia).
Qed.

(** The theorem at the chain [/a/b/c], of height 2, with the limit 3. *)
Lemma deep_limit_changes_nothing_witness :
  tree posix_runtime fs_chain default_filters (Some 3) true 4 ["a"]
  = tree posix_runtime fs_chain default_filters None true 4 ["a"].
Proof.
  apply (deep_limit_changes_nothing posix_runtime fs_chain default_filters true
           chain_height).
  - apply descends_chain_height.
  - vm_compute. reflexivity.
Defined.

(** ** The branch glyphs *)



